(** * Elevator dispatch and motion model (outputs/opencode_big-pickle)

  A shallow embedding of [Elevator.ts], [Floor.ts] and [Building.ts].

  Conventions of the embedding:
  - a JavaScript [number] that holds a floor or an id is a [Z];
  - a [Set<number>] is the list of its members in insertion order, which
    is the order [Array.from] observes;
  - an object stored in an array is identified with its slot: a method
    that mutates the object rewrites the slot;
  - a method that mutates [this] is a function returning the new value;
  - reading a property of [undefined] is a [TypeError]; an operation of
    the building ends in a [completion] that records whether it returned
    or threw, and the state it left behind in both cases;
  - the DOM handles ([element], [upButton], [downButton]) and
    [updateButtonVisuals] touch nothing but the page and are left out. *)

From stdpp Require Import base numbers list sorting.

Local Open Scope Z_scope.

(** ** Elevator.ts *)

Module Direction.
Inductive t := UP | DOWN | IDLE.

#[global] Instance direction_eq_dec : EqDecision t.
Proof. solve_decision. Defined.
End Direction.

Module ElevatorState.
Inductive t := IDLE | MOVING_UP | MOVING_DOWN.

#[global] Instance state_eq_dec : EqDecision t.
Proof. solve_decision. Defined.
End ElevatorState.

Module FloorRequest.
Record t := mk { floor : Z; direction : Direction.t }.

#[global] Instance request_eq_dec : EqDecision t.
Proof. solve_decision. Defined.
End FloorRequest.

(** [Set.prototype.add], [Set.prototype.delete] on the insertion-ordered
  member list. *)
Module NumberSet.
Definition add (x : Z) (s : list Z) : list Z :=
  if decide (x ∈ s) then s else s ++ [x].

Definition delete (x : Z) (s : list Z) : list Z :=
  filter (λ y, y ≠ x) s.
End NumberSet.

Module Elevator.
Record t := mk {
  id : Z;
  currentFloor : Z;
  destinationFloors : list Z;
  state : ElevatorState.t;
  direction : Direction.t
}.

Definition new (id : Z) : t :=
  mk id 0 [] ElevatorState.IDLE Direction.IDLE.

Definition with_currentFloor (e : t) (f : Z) : t :=
  mk (id e) f (destinationFloors e) (state e) (direction e).

Definition with_destinationFloors (e : t) (s : list Z) : t :=
  mk (id e) (currentFloor e) s (state e) (direction e).

(** The two assignments [this.state = s; this.direction = d]. *)
Definition with_motion (e : t) (s : ElevatorState.t) (d : Direction.t) : t :=
  mk (id e) (currentFloor e) (destinationFloors e) s d.

Definition hasDestination (f : Z) (e : t) : bool :=
  bool_decide (f ∈ destinationFloors e).

Definition getNextDestination (e : t) : option Z :=
  match destinationFloors e with
  | [] => None
  | first :: _ =>
    match direction e with
    | Direction.UP =>
      match filter (λ f, currentFloor e < f) (destinationFloors e) with
      | d :: ds => Some (foldr Z.min d ds)
      | [] => Some first
      end
    | Direction.DOWN =>
      match filter (λ f, f < currentFloor e) (destinationFloors e) with
      | d :: ds => Some (foldr Z.max d ds)
      | [] => Some first
      end
    | Direction.IDLE => Some first
    end
  end.

Definition updateDirection (e : t) : t :=
  if decide (length (destinationFloors e) = 0%nat)
  then with_motion e ElevatorState.IDLE Direction.IDLE
  else
    match getNextDestination e with
    | None => with_motion e ElevatorState.IDLE Direction.IDLE
    | Some nextDestination =>
      if decide (currentFloor e < nextDestination)
      then with_motion e ElevatorState.MOVING_UP Direction.UP
      else if decide (nextDestination < currentFloor e)
      then with_motion e ElevatorState.MOVING_DOWN Direction.DOWN
      else with_motion e ElevatorState.IDLE Direction.IDLE
    end.

Definition addDestination (f : Z) (e : t) : t :=
  updateDirection
    (with_destinationFloors e (NumberSet.add f (destinationFloors e))).

Definition removeDestination (f : Z) (e : t) : t :=
  updateDirection
    (with_destinationFloors e (NumberSet.delete f (destinationFloors e))).

(** [move] returns its boolean together with the elevator it leaves. *)
Definition move (e : t) : bool * t :=
  match getNextDestination e with
  | None => (false, e)
  | Some nextDestination =>
    let e1 :=
      if decide (currentFloor e < nextDestination)
      then with_currentFloor e (currentFloor e + 1)
      else if decide (nextDestination < currentFloor e)
      then with_currentFloor e (currentFloor e - 1)
      else e in
    let e2 :=
      if decide (currentFloor e1 = nextDestination)
      then removeDestination (currentFloor e1) e1
      else e1 in
    (true, updateDirection e2)
  end.

Definition canHandleRequest (e : t) (request : FloorRequest.t) : bool :=
  if decide (state e = ElevatorState.IDLE) then true
  else if decide (direction e = Direction.UP
                  ∧ FloorRequest.direction request = Direction.UP
                  ∧ currentFloor e ≤ FloorRequest.floor request) then true
  else if decide (direction e = Direction.DOWN
                  ∧ FloorRequest.direction request = Direction.DOWN
                  ∧ FloorRequest.floor request ≤ currentFloor e) then true
  else false.

Definition getDistanceToRequest (e : t) (request : FloorRequest.t) : Z :=
  Z.abs (currentFloor e - FloorRequest.floor request).
End Elevator.

(** ** Floor.ts *)

Module Floor.
Record t := mk {
  number : Z;
  upButtonPressed : bool;
  downButtonPressed : bool
}.

Definition new (number : Z) : t := mk number false false.

Definition pressUpButton (fl : t) : t :=
  if decide (number fl ≠ 9) then mk (number fl) true (downButtonPressed fl)
  else fl.

Definition pressDownButton (fl : t) : t :=
  if decide (number fl ≠ 0) then mk (number fl) (upButtonPressed fl) true
  else fl.

Definition releaseUpButton (fl : t) : t :=
  mk (number fl) false (downButtonPressed fl).

Definition releaseDownButton (fl : t) : t :=
  mk (number fl) (upButtonPressed fl) false.

Definition hasActiveRequest (fl : t) : bool :=
  upButtonPressed fl || downButtonPressed fl.

Definition getActiveRequests (fl : t) : list Direction.t :=
  (if upButtonPressed fl then [Direction.UP] else [])
  ++ (if downButtonPressed fl then [Direction.DOWN] else []).
End Floor.

(** ** Building.ts *)

Module Building.
Record t := mk {
  floors : list Floor.t;
  elevators : list Elevator.t;
  pendingRequests : list FloorRequest.t;
  totalFloors : Z;
  totalElevators : Z
}.

(** [Array.from({ length: n }, (_, i) => make(i))]: a negative length
    gives the empty array. *)
Definition array_from {A} (n : Z) (make : Z → A) : list A :=
  (λ i : nat, make (Z.of_nat i)) <$> seq 0 (Z.to_nat n).

Definition new (totalFloors totalElevators : Z) : t :=
  mk (array_from totalFloors Floor.new)
     (array_from totalElevators Elevator.new)
     [] totalFloors totalElevators.

Definition with_floors (b : t) (fs : list Floor.t) : t :=
  mk fs (elevators b) (pendingRequests b) (totalFloors b) (totalElevators b).

Definition with_elevators (b : t) (es : list Elevator.t) : t :=
  mk (floors b) es (pendingRequests b) (totalFloors b) (totalElevators b).

Definition with_pendingRequests (b : t) (rs : list FloorRequest.t) : t :=
  mk (floors b) (elevators b) rs (totalFloors b) (totalElevators b).

(** [a[i]] for an integer [i]: [undefined] outside the array. *)
Definition at_index {A} (a : list A) (i : Z) : option A :=
  if decide (0 ≤ i) then a !! Z.to_nat i else None.

(** A method call on the floor object held at slot [i]. *)
Definition on_floor (i : Z) (method : Floor.t → Floor.t) (b : t) : t :=
  with_floors b (alter method (Z.to_nat i) (floors b)).

(** How an operation ends: it returns, or a [TypeError] escapes it. *)
Inductive completion :=
| Normal (b : t)
| TypeError (b : t).

Definition after (c : completion) : t :=
  match c with Normal b => b | TypeError b => b end.

Definition and_then (c : completion) (k : t → completion) : completion :=
  match c with Normal b => k b | TypeError b => TypeError b end.

(** The predicate of [findIndex] and [some] in [removePendingRequest]. *)
Definition same_call (request r : FloorRequest.t) : Prop :=
  FloorRequest.floor r = FloorRequest.floor request
  ∧ FloorRequest.direction r = FloorRequest.direction request.

#[global] Instance same_call_dec request r : Decision (same_call request r).
Proof. unfold same_call. apply _. Defined.

Definition removePendingRequest (request : FloorRequest.t) (b : t) : completion :=
  let b1 :=
    match list_find (same_call request) (pendingRequests b) with
    | Some (index, _) =>
      with_pendingRequests b (delete index (pendingRequests b))
    | None => b
    end in
  let hasOtherRequests :=
    bool_decide (Exists (same_call request) (pendingRequests b1)) in
  if negb hasOtherRequests then
    match at_index (floors b1) (FloorRequest.floor request) with
    | None => TypeError b1
    | Some _ =>
      if decide (FloorRequest.direction request = Direction.UP)
      then Normal (on_floor (FloorRequest.floor request) Floor.releaseUpButton b1)
      else Normal (on_floor (FloorRequest.floor request) Floor.releaseDownButton b1)
    end
  else Normal b1.

(** The callback of [reduce] in [assignRequestToElevator]; an elevator
    object travels with the slot it sits in. *)
Definition closer (request : FloorRequest.t)
    (best current : nat * Elevator.t) : nat * Elevator.t :=
  let bestDistance := Elevator.getDistanceToRequest best.2 request in
  let currentDistance := Elevator.getDistanceToRequest current.2 request in
  if decide (currentDistance < bestDistance) then current
  else if decide (currentDistance = bestDistance) then
    if decide (Elevator.state current.2 = ElevatorState.IDLE
               ∧ Elevator.state best.2 ≠ ElevatorState.IDLE)
    then current else best
  else best.

Definition availableElevators (request : FloorRequest.t) (b : t)
    : list (nat * Elevator.t) :=
  filter (λ p, Elevator.canHandleRequest p.2 request = true)
         (imap (λ i e, (i, e)) (elevators b)).

Definition assignRequestToElevator (request : FloorRequest.t) (b : t) : completion :=
  match availableElevators request b with
  | [] => Normal b
  | first :: rest =>
    let bestElevator := foldl (closer request) first rest in
    let b1 :=
      with_elevators b
        (<[bestElevator.1 :=
             Elevator.addDestination (FloorRequest.floor request) bestElevator.2]>
           (elevators b)) in
    removePendingRequest request b1
  end.

Definition requestElevator (floorNumber : Z) (direction : Direction.t) (b : t)
    : completion :=
  if decide (floorNumber < 0 ∨ totalFloors b ≤ floorNumber) then Normal b
  else if decide (floorNumber = 0 ∧ direction = Direction.DOWN) then Normal b
  else if decide (floorNumber = totalFloors b - 1 ∧ direction = Direction.UP)
  then Normal b
  else
    let request := FloorRequest.mk floorNumber direction in
    let b1 := with_pendingRequests b (pendingRequests b ++ [request]) in
    match at_index (floors b1) floorNumber with
    | None => TypeError b1
    | Some _ =>
      let b2 :=
        if decide (direction = Direction.UP)
        then on_floor floorNumber Floor.pressUpButton b1
        else on_floor floorNumber Floor.pressDownButton b1 in
      assignRequestToElevator request b2
    end.

Definition requestElevatorFloor (elevatorId floorNumber : Z) (b : t) : completion :=
  if decide (floorNumber < 0 ∨ totalFloors b ≤ floorNumber) then Normal b
  else
    match at_index (elevators b) elevatorId with
    | Some elevator =>
      Normal (with_elevators b
                (<[Z.to_nat elevatorId :=
                     Elevator.addDestination floorNumber elevator]> (elevators b)))
    | None => Normal b
    end.

(** [this.pendingRequests.forEach(request => this.assignRequestToElevator(request))].
    [forEach] fixes the number of rounds when it starts, visits index [k]
    only if the array still has it, and reads the element that sits there
    by then; the callback splices the array meanwhile.  [n] counts the
    rounds left.  The first component lists the requests visited. *)
Fixpoint forEachPending (n k : nat) (b : t) : list FloorRequest.t * completion :=
  match n with
  | O => ([], Normal b)
  | S n' =>
    match pendingRequests b !! k with
    | Some request =>
      match assignRequestToElevator request b with
      | Normal b' =>
        let rest := forEachPending n' (S k) b' in
        (request :: rest.1, rest.2)
      | TypeError b' => ([request], TypeError b')
      end
    | None => forEachPending n' (S k) b
    end
  end.

(** One round of the [forEach] in [checkElevatorArrivals].  [floor] is an
    object: the second test reads it as the first branch left it. *)
Definition arrival (elevator : Elevator.t) (b : t) : completion :=
  let here := Elevator.currentFloor elevator in
  match at_index (floors b) here with
  | None => TypeError b
  | Some floor =>
    and_then
      (if Floor.upButtonPressed floor
          && bool_decide (Elevator.direction elevator = Direction.UP)
       then removePendingRequest (FloorRequest.mk here Direction.UP)
              (on_floor here Floor.releaseUpButton b)
       else Normal b)
      (λ b1,
         match at_index (floors b1) here with
         | None => TypeError b1
         | Some floor1 =>
           if Floor.downButtonPressed floor1
              && bool_decide (Elevator.direction elevator = Direction.DOWN)
           then removePendingRequest (FloorRequest.mk here Direction.DOWN)
                  (on_floor here Floor.releaseDownButton b1)
           else Normal b1
         end)
  end.

(** The callback never touches an elevator, so the rounds run over the
    elevators as they are when the loop starts. *)
Definition checkElevatorArrivals (b : t) : completion :=
  foldl (λ c elevator, and_then c (arrival elevator)) (Normal b) (elevators b).

Definition update (b : t) : completion :=
  let b1 := with_elevators b ((λ e, (Elevator.move e).2) <$> elevators b) in
  and_then (forEachPending (length (pendingRequests b1)) 0 b1).2
           checkElevatorArrivals.

Definition reset_elevator (e : Elevator.t) : Elevator.t :=
  Elevator.mk (Elevator.id e) 0 [] ElevatorState.IDLE Direction.IDLE.

Definition reset (b : t) : completion :=
  Normal (mk ((λ fl, Floor.releaseDownButton (Floor.releaseUpButton fl)) <$> floors b)
             (reset_elevator <$> elevators b)
             []
             (totalFloors b) (totalElevators b)).

(** The command surface, and a history of commands.  An exception that
    escapes a handler leaves the building as the handler left it. *)
Inductive command :=
| RequestElevator (floorNumber : Z) (direction : Direction.t)
| RequestElevatorFloor (elevatorId floorNumber : Z)
| Update
| Reset.

Definition exec (c : command) (b : t) : completion :=
  match c with
  | RequestElevator f d => requestElevator f d b
  | RequestElevatorFloor i f => requestElevatorFloor i f b
  | Update => update b
  | Reset => reset b
  end.

Definition run (cs : list command) (b : t) : t :=
  foldl (λ b c, after (exec c b)) b cs.
End Building.


Import Building.

(** ** Vocabulary of the properties *)

(** What [updateDirection] establishes: the elevator is [IDLE] exactly when
    it has nowhere to travel, because nothing is left or because the stop
    [getNextDestination] selects is the floor it stands on. *)
Definition direction_settled (e : Elevator.t) : Prop :=
  Elevator.direction e = Direction.IDLE
  ↔ Elevator.destinationFloors e = []
    ∨ Elevator.getNextDestination e = Some (Elevator.currentFloor e).

(** The number of queued calls for a pair. *)
Definition outstanding (floorNumber : Z) (direction : Direction.t) (b : t) : nat :=
  length (filter (same_call (FloorRequest.mk floorNumber direction))
                 (pendingRequests b)).

(** The queue without its first call for the pair of [request]. *)
Definition without_first_call (request : FloorRequest.t)
    (queue : list FloorRequest.t) : list FloorRequest.t :=
  match list_find (same_call request) queue with
  | Some (index, _) => delete index queue
  | None => queue
  end.

(** The order [closer] sorts by: distance first, an idle elevator before a
    moving one at the same distance. *)
Definition dispatch_key (request : FloorRequest.t) (e : Elevator.t) : Z :=
  2 * Elevator.getDistanceToRequest e request
  + (if decide (Elevator.state e = ElevatorState.IDLE) then 0 else 1).

Definition in_building (b : t) (f : Z) : Prop := 0 ≤ f < totalFloors b.

(** The frame every operation keeps: the two constants, the floor numbers,
    the elevator ids, a property [Q] of every elevator, and queued calls
    at floors of the building. *)
Definition kept (tf te : Z) (nums ids : list Z) (Q : Elevator.t → Prop)
    (b : t) : Prop :=
  totalFloors b = tf
  ∧ totalElevators b = te
  ∧ Floor.number <$> floors b = nums
  ∧ Elevator.id <$> elevators b = ids
  ∧ Forall Q (elevators b)
  ∧ Forall (λ r, 0 ≤ FloorRequest.floor r < tf) (pendingRequests b).

(** An elevator inside a building of [tf] floors, with stops inside it. *)
Definition within (tf : Z) (e : Elevator.t) : Prop :=
  0 ≤ Elevator.currentFloor e < tf
  ∧ Forall (λ f, 0 ≤ f < tf) (Elevator.destinationFloors e).

(** A history used below: two cars sent up by their panels, three hall
    calls placed while neither car can take them, then two more ticks. *)
Definition busy_morning : list command :=
  [ RequestElevatorFloor 0 6; RequestElevatorFloor 1 7; Update; Update; Update;
    RequestElevatorFloor 0 2;
    RequestElevator 1 Direction.UP; RequestElevator 4 Direction.DOWN;
    RequestElevator 5 Direction.DOWN;
    Update; Update ].

(** [n] successive calls of [move] on one elevator. *)
Definition moves (n : nat) (e : Elevator.t) : Elevator.t :=
  Nat.iter n (λ e, (Elevator.move e).2) e.

(** State and direction are the ones [updateDirection] would set. *)
Definition on_course (e : Elevator.t) : Prop := Elevator.updateDirection e = e.

(** Every pressed hall button has a queued call behind it: an UP call for
    the up button, a call that is not UP for the down button (the branch
    [requestElevator] takes for every direction but UP). *)
Definition buttons_backed (b : t) : Prop :=
  ∀ (i : nat) (fl : Floor.t), floors b !! i = Some fl →
    (Floor.upButtonPressed fl = true →
     ∃ r, r ∈ pendingRequests b ∧ FloorRequest.floor r = Z.of_nat i
          ∧ FloorRequest.direction r = Direction.UP)
    ∧ (Floor.downButtonPressed fl = true →
       ∃ r, r ∈ pendingRequests b ∧ FloorRequest.floor r = Z.of_nat i
            ∧ FloorRequest.direction r ≠ Direction.UP).

(** Floors carry their index as number; the down button of floor 0 and
    the up button of the top floor are never pressed. *)
Definition end_buttons_dark (b : t) : Prop :=
  ∀ (i : nat) (fl : Floor.t), floors b !! i = Some fl →
    Floor.number fl = Z.of_nat i
    ∧ (Z.of_nat i = totalFloors b - 1 → Floor.upButtonPressed fl = false)
    ∧ (i = 0%nat → Floor.downButtonPressed fl = false).

(** What keeps [floors[...]] defined wherever the operations index it. *)
Definition indexable (b : t) : Prop :=
  length (floors b) = Z.to_nat (totalFloors b)
  ∧ Forall (within (totalFloors b)) (elevators b)
  ∧ Forall (λ r, 0 ≤ FloorRequest.floor r < totalFloors b) (pendingRequests b).

(** A building at rest: nothing queued, no elevator with anywhere to go. *)
Definition at_rest (b : t) : Prop :=
  pendingRequests b = []
  ∧ Forall (λ e, Elevator.destinationFloors e = []
                 ∧ Elevator.direction e = Direction.IDLE) (elevators b).

(** * Elevator *)

Section ElevatorFacts.
Import Elevator.

Lemma foldr_min_least (d : Z) (ds : list Z) :
  foldr Z.min d ds ∈ d :: ds ∧ ∀ x, x ∈ d :: ds → foldr Z.min d ds ≤ x.
Proof.
  induction ds as [|y ds [Hin Hle]]; simpl.
  - split; [left|]. intros x ->%list_elem_of_singleton. lia.
  - split.
    + destruct (Z.min_spec y (foldr Z.min d ds)) as [[_ ->]|[_ ->]].
      * right; left.
      * apply elem_of_cons in Hin as [->|Hin]; [left|do 2 right; done].
    + intros x Hx. rewrite !elem_of_cons in Hx.
      destruct Hx as [->|[->|Hx]].
      * specialize (Hle d ltac:(left)). lia.
      * lia.
      * specialize (Hle x ltac:(by right)). lia.
Qed.

Lemma foldr_max_greatest (d : Z) (ds : list Z) :
  foldr Z.max d ds ∈ d :: ds ∧ ∀ x, x ∈ d :: ds → x ≤ foldr Z.max d ds.
Proof.
  induction ds as [|y ds [Hin Hle]]; simpl.
  - split; [left|]. intros x ->%list_elem_of_singleton. lia.
  - split.
    + destruct (Z.max_spec y (foldr Z.max d ds)) as [[_ ->]|[_ ->]].
      * apply elem_of_cons in Hin as [->|Hin]; [left|do 2 right; done].
      * right; left.
    + intros x Hx. rewrite !elem_of_cons in Hx.
      destruct Hx as [->|[->|Hx]].
      * specialize (Hle d ltac:(left)). lia.
      * lia.
      * specialize (Hle x ltac:(by right)). lia.
Qed.

Lemma getNextDestination_None (e : t) :
  getNextDestination e = None ↔ destinationFloors e = [].
Proof.
  unfold getNextDestination. destruct (destinationFloors e) as [|first rest].
  - done.
  - split; [|done]. destruct (direction e); [| |done].
    + destruct (filter _ _); done.
    + destruct (filter _ _); done.
Qed.

(** The three ways [getNextDestination] picks a stop. *)
Lemma getNextDestination_cases (e : t) (first : Z) (rest : list Z) :
  destinationFloors e = first :: rest →
  ∃ n, getNextDestination e = Some n ∧ n ∈ destinationFloors e
    ∧ ((direction e = Direction.UP ∧ currentFloor e < n
        ∧ ∀ x, x ∈ destinationFloors e → currentFloor e < x → n ≤ x)
       ∨ (direction e = Direction.DOWN ∧ n < currentFloor e
          ∧ ∀ x, x ∈ destinationFloors e → x < currentFloor e → x ≤ n)
       ∨ (n = first
          ∧ (direction e = Direction.UP →
             ∀ x, x ∈ destinationFloors e → ¬ currentFloor e < x)
          ∧ (direction e = Direction.DOWN →
             ∀ x, x ∈ destinationFloors e → ¬ x < currentFloor e))).
Proof.
  intros Hds. unfold getNextDestination. rewrite Hds.
  destruct (direction e) eqn:Hdir.
  - destruct (filter _ (first :: rest)) as [|d ds] eqn:Hf.
    + exists first. split; [done|]. split; [left|]. do 2 right.
      split; [done|]. split; [|done].
      intros _ x Hx Hlt. exact (filter_nil_not_elem_of _ _ x Hf Hlt Hx).
    + destruct (foldr_min_least d ds) as [Hin Hle]. rewrite <- Hf in Hin, Hle.
      exists (foldr Z.min d ds). split; [done|].
      apply list_elem_of_filter in Hin as [Hlt Hin]. split; [done|]. left.
      split; [done|]. split; [done|].
      intros x Hx Hx'. apply Hle, list_elem_of_filter. done.
  - destruct (filter _ (first :: rest)) as [|d ds] eqn:Hf.
    + exists first. split; [done|]. split; [left|]. do 2 right.
      split; [done|]. split; [done|].
      intros _ x Hx Hlt. exact (filter_nil_not_elem_of _ _ x Hf Hlt Hx).
    + destruct (foldr_max_greatest d ds) as [Hin Hle]. rewrite <- Hf in Hin, Hle.
      exists (foldr Z.max d ds). split; [done|].
      apply list_elem_of_filter in Hin as [Hlt Hin]. split; [done|]. right; left.
      split; [done|]. split; [done|].
      intros x Hx Hx'. apply Hle, list_elem_of_filter. done.
  - exists first. split; [done|]. split; [left|]. do 2 right. done.
Qed.

Lemma getNextDestination_elem (e : t) (n : Z) :
  getNextDestination e = Some n → n ∈ destinationFloors e.
Proof.
  intros Hn. destruct (destinationFloors e) as [|first rest] eqn:Hds.
  - apply getNextDestination_None in Hds. congruence.
  - destruct (getNextDestination_cases e first rest Hds) as (m & Hm & Hin & _).
    rewrite Hds in Hin. congruence.
Qed.

Lemma updateDirection_fields (e : t) :
  id (updateDirection e) = id e
  ∧ currentFloor (updateDirection e) = currentFloor e
  ∧ destinationFloors (updateDirection e) = destinationFloors e.
Proof.
  unfold updateDirection.
  destruct (decide _); [done|].
  destruct (getNextDestination e); [|done].
  repeat case_decide; done.
Qed.

Lemma updateDirection_settled (e : t) : direction_settled (updateDirection e).
Proof.
  unfold direction_settled.
  destruct (updateDirection_fields e) as (_ & Hcur & Hds).
  rewrite Hcur, Hds.
  destruct (destinationFloors e) as [|first rest] eqn:Hdse.
  { unfold updateDirection. rewrite Hdse. simpl. tauto. }
  destruct (getNextDestination_cases e first rest Hdse) as (n & Hn & Hin & Hcase).
  assert (Hds' : destinationFloors (updateDirection e) = first :: rest)
    by congruence.
  destruct (getNextDestination_cases _ first rest Hds')
    as (n' & Hn' & Hin' & Hcase').
  rewrite Hcur, Hds in Hcase'. rewrite Hn'. rewrite Hdse in Hin.
  assert (Hdir : direction (updateDirection e) =
                 if decide (currentFloor e < n) then Direction.UP
                 else if decide (n < currentFloor e) then Direction.DOWN
                 else Direction.IDLE).
  { unfold updateDirection. rewrite Hdse, Hn. simpl.
    repeat case_decide; done. }
  rewrite Hdir in *. clear Hdir.
  destruct (decide (currentFloor e < n)) as [Hup|Hnup].
  - split; [done|]. intros [?|[= ->]]; [done|].
    destruct Hcase' as [(_ & ? & _)|[(? & _)|(_ & Hno & _)]]; [exfalso; lia|done|].
    exfalso. by apply (Hno eq_refl n).
  - destruct (decide (n < currentFloor e)) as [Hdown|Hndown].
    + split; [done|]. intros [?|[= ->]]; [done|].
      destruct Hcase' as [(? & _)|[(_ & ? & _)|(_ & _ & Hno)]]; [done|exfalso; lia|].
      exfalso. by apply (Hno eq_refl n).
    + split; [|done]. intros _. right. f_equal.
      destruct Hcase' as [(? & _)|[(? & _)|(-> & _)]]; [done|done|].
      destruct Hcase as [(_ & ? & _)|[(_ & ? & _)|(-> & _)]]; lia.
Qed.

End ElevatorFacts.

Section ElevatorSteps.
Import Elevator.

Lemma addDestination_fields (f : Z) (e : t) :
  id (addDestination f e) = id e
  ∧ currentFloor (addDestination f e) = currentFloor e
  ∧ destinationFloors (addDestination f e) = NumberSet.add f (destinationFloors e).
Proof. unfold addDestination. by destruct (updateDirection_fields
  (with_destinationFloors e (NumberSet.add f (destinationFloors e))))
  as (-> & -> & ->). Qed.

Lemma removeDestination_fields (f : Z) (e : t) :
  id (removeDestination f e) = id e
  ∧ currentFloor (removeDestination f e) = currentFloor e
  ∧ destinationFloors (removeDestination f e)
    = NumberSet.delete f (destinationFloors e).
Proof. unfold removeDestination. by destruct (updateDirection_fields
  (with_destinationFloors e (NumberSet.delete f (destinationFloors e))))
  as (-> & -> & ->). Qed.

(** What one [move] does to the fields, given the stop it heads for. *)
Lemma move_fields (e : t) (next : Z) :
  getNextDestination e = Some next →
  (move e).1 = true
  ∧ id (move e).2 = id e
  ∧ currentFloor (move e).2 = currentFloor e + Z.sgn (next - currentFloor e)
  ∧ destinationFloors (move e).2
    = (if decide (currentFloor (move e).2 = next)
       then NumberSet.delete next (destinationFloors e)
       else destinationFloors e).
Proof.
  intros Hn. unfold move. rewrite Hn. cbn [fst snd].
  split; [done|].
  set (e1 := if decide (currentFloor e < next) then _ else _).
  assert (He1 : id e1 = id e
                ∧ currentFloor e1 = currentFloor e + Z.sgn (next - currentFloor e)
                ∧ destinationFloors e1 = destinationFloors e).
  { subst e1. repeat case_decide; simpl; repeat split; lia. }
  destruct He1 as (Hid & Hcur & Hds). clearbody e1.
  set (e2 := if decide (currentFloor e1 = next) then _ else _).
  destruct (updateDirection_fields e2) as (-> & -> & ->).
  subst e2. case_decide as Hat.
  - destruct (removeDestination_fields (currentFloor e1) e1) as (-> & -> & ->).
    rewrite (decide_True _ _ Hat), Hds. repeat split; congruence.
  - rewrite (decide_False _ _ Hat). done.
Qed.

Lemma move_nowhere (e : t) : destinationFloors e = [] → move e = (false, e).
Proof.
  intros Hds%getNextDestination_None. unfold move. by rewrite Hds.
Qed.

Lemma move_settled (e : t) : direction_settled e → direction_settled (move e).2.
Proof.
  intros He. unfold move. destruct (getNextDestination e); [|done].
  apply updateDirection_settled.
Qed.

Lemma elem_of_NumberSet_add (x f : Z) (s : list Z) :
  x ∈ NumberSet.add f s ↔ x = f ∨ x ∈ s.
Proof.
  unfold NumberSet.add. case_decide as Hin.
  - split; [by right|]. by intros [->|?].
  - rewrite elem_of_app, list_elem_of_singleton. tauto.
Qed.

Lemma elem_of_NumberSet_delete (x f : Z) (s : list Z) :
  x ∈ NumberSet.delete f s ↔ x ≠ f ∧ x ∈ s.
Proof. unfold NumberSet.delete. by rewrite list_elem_of_filter. Qed.

Lemma addDestination_within (tf f : Z) (e : t) :
  0 ≤ f < tf → within tf e → within tf (addDestination f e).
Proof.
  intros Hf [Hcur Hds]. unfold within.
  destruct (addDestination_fields f e) as (_ & -> & ->).
  split; [done|]. rewrite Forall_forall in *.
  intros x [->|Hx]%elem_of_NumberSet_add; auto.
Qed.

Lemma move_within (tf : Z) (e : t) : within tf e → within tf (move e).2.
Proof.
  intros [Hcur Hds]. destruct (getNextDestination e) as [next|] eqn:Hn.
  - destruct (move_fields e next Hn) as (_ & _ & Hcur' & Hds').
    pose proof (getNextDestination_elem e next Hn) as Hin.
    rewrite Forall_forall in Hds. pose proof (Hds next Hin).
    unfold within. rewrite Hds', Hcur'. split; [lia|].
    rewrite Forall_forall.
    destruct (decide (currentFloor e + Z.sgn (next - currentFloor e) = next)).
    + intros x [_ Hx]%elem_of_NumberSet_delete. auto.
    + auto.
  - apply getNextDestination_None in Hn. rewrite (move_nowhere e Hn). done.
Qed.

Lemma move_at_most_one_floor (e : t) :
  Z.abs (currentFloor (move e).2 - currentFloor e) ≤ 1.
Proof.
  destruct (getNextDestination e) as [next|] eqn:Hn.
  - destruct (move_fields e next Hn) as (_ & _ & -> & _). lia.
  - apply getNextDestination_None in Hn. rewrite (move_nowhere e Hn).
    simpl. lia.
Qed.

End ElevatorSteps.

(** * Building: what every operation keeps *)

Lemma move_id (e : Elevator.t) : Elevator.id (Elevator.move e).2 = Elevator.id e.
Proof.
  destruct (Elevator.getNextDestination e) as [next|] eqn:Hn.
  - by destruct (move_fields e next Hn) as (_ & -> & _).
  - apply getNextDestination_None in Hn. by rewrite (move_nowhere e Hn).
Qed.

Lemma closer_choice (r : FloorRequest.t) (best current : nat * Elevator.t) :
  closer r best current = best ∨ closer r best current = current.
Proof. unfold closer. repeat case_decide; auto. Qed.

Lemma foldl_closer_elem (r : FloorRequest.t) (rest : list (nat * Elevator.t))
    (first : nat * Elevator.t) :
  foldl (closer r) first rest ∈ first :: rest.
Proof.
  revert first. induction rest as [|x rest IH]; intros first; simpl.
  - left.
  - specialize (IH (closer r first x)).
    apply elem_of_cons in IH as [->|IH].
    + destruct (closer_choice r first x) as [->| ->]; [left|right; left].
    + do 2 right. done.
Qed.

Lemma elem_of_availableElevators (r : FloorRequest.t) (b : t) (i : nat)
    (e : Elevator.t) :
  (i, e) ∈ availableElevators r b
  ↔ elevators b !! i = Some e ∧ Elevator.canHandleRequest e r = true.
Proof.
  unfold availableElevators.
  rewrite list_elem_of_filter, elem_of_lookup_imap. simpl. split.
  - intros (Hcan & j & y & [= -> ->] & Hj). done.
  - intros [Hi Hcan]. split; [done|]. by exists i, e.
Qed.

(** The elevator [assignRequestToElevator] writes to sits in the array. *)
Lemma assigned_elevator_lookup (r : FloorRequest.t) (b : t)
    (first : nat * Elevator.t) (rest : list (nat * Elevator.t)) :
  availableElevators r b = first :: rest →
  elevators b !! (foldl (closer r) first rest).1
  = Some (foldl (closer r) first rest).2
  ∧ Elevator.canHandleRequest (foldl (closer r) first rest).2 r = true.
Proof.
  intros Hav. pose proof (foldl_closer_elem r rest first) as Hin.
  rewrite <- Hav in Hin. destruct (foldl (closer r) first rest) as [i e].
  by apply elem_of_availableElevators in Hin.
Qed.

Lemma at_index_Some {A} (a : list A) (i : Z) (x : A) :
  at_index a i = Some x ↔ 0 ≤ i ∧ a !! Z.to_nat i = Some x.
Proof.
  unfold at_index. case_decide as Hi; [tauto|].
  split; [done|]. by intros [? _].
Qed.

Section Kept.
Variables (tf te : Z) (nums ids : list Z) (Q : Elevator.t → Prop).
Hypothesis Q_move : ∀ e, Q e → Q (Elevator.move e).2.
Hypothesis Q_addDestination :
  ∀ f e, 0 ≤ f < tf → Q e → Q (Elevator.addDestination f e).
Hypothesis Q_reset : ∀ e, Q e → Q (reset_elevator e).

Local Notation "'ok'" := (kept tf te nums ids Q).

Lemma kept_with_pendingRequests (b : t) (rs : list FloorRequest.t) :
  ok b → Forall (λ r, 0 ≤ FloorRequest.floor r < tf) rs →
  ok (with_pendingRequests b rs).
Proof. intros (? & ? & ? & ? & ? & ?) Hrs. by repeat split. Qed.

Lemma kept_on_floor (i : Z) (method : Floor.t → Floor.t) (b : t) :
  (∀ fl, Floor.number (method fl) = Floor.number fl) →
  ok b → ok (on_floor i method b).
Proof.
  intros Hm (? & ? & Hnum & ? & ? & ?). repeat split; try done. simpl.
  rewrite <- Hnum. clear Hnum. generalize (Z.to_nat i) as k.
  induction (floors b) as [|fl fls IH]; intros [|k]; simpl; try done.
  - by rewrite Hm.
  - f_equal. apply IH.
Qed.

Lemma kept_and_then (c : completion) (k : t → completion) :
  ok (after c) → (∀ b, ok b → ok (after (k b))) → ok (after (and_then c k)).
Proof. destruct c; simpl; auto. Qed.

Lemma kept_removePendingRequest (r : FloorRequest.t) (b : t) :
  ok b → ok (after (removePendingRequest r b)).
Proof.
  intros Hb. unfold removePendingRequest.
  set (b1 := match list_find _ _ with Some _ => _ | None => _ end).
  assert (Hb1 : ok b1).
  { subst b1. destruct (list_find _ _) as [[index ?]|]; [|done].
    apply kept_with_pendingRequests; [done|].
    apply Forall_delete. apply Hb. }
  clearbody b1. destruct (negb _); [|done].
  destruct (at_index _ _); [|done].
  case_decide; simpl; by apply kept_on_floor.
Qed.

Lemma kept_assignRequestToElevator (r : FloorRequest.t) (b : t) :
  0 ≤ FloorRequest.floor r < tf →
  ok b → ok (after (assignRequestToElevator r b)).
Proof.
  intros Hr Hb. unfold assignRequestToElevator.
  destruct (availableElevators r b) as [|first rest] eqn:Hav; [done|].
  destruct (assigned_elevator_lookup r b first rest Hav) as [Hi _].
  destruct (foldl (closer r) first rest) as [i e]. simpl in *.
  apply kept_removePendingRequest.
  destruct Hb as (? & ? & ? & Hids & HQ & ?). repeat split; try done; simpl.
  - rewrite list_fmap_insert. rewrite list_insert_id; [done|].
    rewrite list_lookup_fmap, Hi. simpl.
    by destruct (addDestination_fields (FloorRequest.floor r) e) as (-> & _).
  - apply Forall_insert; [done|]. apply Q_addDestination; [done|].
    by eapply Forall_lookup_1.
Qed.

Lemma kept_requestElevator (f : Z) (d : Direction.t) (b : t) :
  ok b → ok (after (requestElevator f d b)).
Proof.
  intros Hb. unfold requestElevator.
  destruct (decide _) as [|Hf]; [done|].
  do 2 (destruct (decide _); [done|]).
  assert (Hb1 : ok (with_pendingRequests b
                      (pendingRequests b ++ [FloorRequest.mk f d]))).
  { apply kept_with_pendingRequests; [done|].
    apply Forall_app. split; [apply Hb|].
    apply Forall_singleton. simpl.
    destruct Hb as (<- & _). lia. }
  destruct (at_index _ _); [|done].
  apply kept_assignRequestToElevator.
  - simpl. destruct Hb as (<- & _). lia.
  - case_decide; by apply kept_on_floor; [intros fl; unfold
      Floor.pressUpButton, Floor.pressDownButton; by case_decide|].
Qed.

Lemma kept_requestElevatorFloor (i f : Z) (b : t) :
  ok b → ok (after (requestElevatorFloor i f b)).
Proof.
  intros Hb. unfold requestElevatorFloor.
  destruct (decide _) as [|Hf]; [done|].
  destruct (at_index _ _) as [e|] eqn:Hi; [|done].
  apply at_index_Some in Hi as [_ Hi].
  destruct Hb as (Htf & ? & ? & Hids & HQ & ?). repeat split; try done; simpl.
  - rewrite list_fmap_insert. rewrite list_insert_id; [done|].
    rewrite list_lookup_fmap, Hi. simpl.
    by destruct (addDestination_fields f e) as (-> & _).
  - apply Forall_insert; [done|]. apply Q_addDestination; [lia|].
    by eapply Forall_lookup_1.
Qed.

Lemma kept_forEachPending (n k : nat) (b : t) :
  ok b → ok (after (forEachPending n k b).2).
Proof.
  revert k b. induction n as [|n IH]; intros k b Hb; simpl; [done|].
  destruct (pendingRequests b !! k) as [r|] eqn:Hk; [|by apply IH].
  assert (Hr : 0 ≤ FloorRequest.floor r < tf).
  { destruct Hb as (_ & _ & _ & _ & _ & Hp).
    by apply (Forall_lookup_1 _ _ _ _ Hp Hk). }
  pose proof (kept_assignRequestToElevator r b Hr Hb) as Hb'.
  destruct (assignRequestToElevator r b); simpl in *; [by apply IH|done].
Qed.

Lemma kept_arrival (e : Elevator.t) (b : t) : ok b → ok (after (arrival e b)).
Proof.
  intros Hb. unfold arrival. destruct (at_index _ _); [|done].
  apply kept_and_then.
  - destruct (_ && _); [|done].
    by apply kept_removePendingRequest, kept_on_floor.
  - intros b1 Hb1. destruct (at_index _ _); [|done].
    destruct (_ && _); [|done].
    by apply kept_removePendingRequest, kept_on_floor.
Qed.

Lemma kept_arrivals (es : list Elevator.t) (c : completion) :
  ok (after c) →
  ok (after (foldl (λ c elevator, and_then c (arrival elevator)) c es)).
Proof.
  revert c. induction es as [|e es IH]; intros c Hc; simpl; [done|].
  apply IH, kept_and_then; [done|]. apply kept_arrival.
Qed.

Lemma kept_update (b : t) : ok b → ok (after (update b)).
Proof.
  intros Hb. unfold update. apply kept_and_then.
  - apply kept_forEachPending.
    destruct Hb as (? & ? & ? & Hids & HQ & ?). repeat split; try done; simpl.
    + rewrite <- Hids, <- list_fmap_compose. apply list_fmap_ext.
      intros _ e _. apply move_id.
    + apply Forall_fmap. eapply Forall_impl; [done|]. apply Q_move.
  - intros b2 Hb2. by apply kept_arrivals.
Qed.

Lemma kept_reset (b : t) : ok b → ok (after (reset b)).
Proof.
  intros (? & ? & Hnum & Hids & HQ & ?). repeat split; try done; simpl.
  - rewrite <- Hnum, <- list_fmap_compose. by apply list_fmap_ext.
  - rewrite <- Hids, <- list_fmap_compose. by apply list_fmap_ext.
  - apply Forall_fmap. eapply Forall_impl; [done|]. apply Q_reset.
Qed.

Lemma kept_exec (c : command) (b : t) : ok b → ok (after (exec c b)).
Proof.
  destruct c; simpl.
  - apply kept_requestElevator.
  - apply kept_requestElevatorFloor.
  - apply kept_update.
  - apply kept_reset.
Qed.

Lemma kept_run (cs : list command) (b : t) : ok b → ok (run cs b).
Proof.
  revert b. induction cs as [|c cs IH]; intros b Hb; simpl; [done|].
  by apply IH, kept_exec.
Qed.

End Kept.

(** * Dispatch: which elevator [assignRequestToElevator] picks *)

Lemma closer_by_key (r : FloorRequest.t) (best current : nat * Elevator.t) :
  closer r best current
  = if decide (dispatch_key r current.2 < dispatch_key r best.2)
    then current else best.
Proof.
  unfold closer, dispatch_key.
  destruct (decide (Elevator.state current.2 = ElevatorState.IDLE)),
           (decide (Elevator.state best.2 = ElevatorState.IDLE));
    repeat case_decide; try done; try lia; tauto.
Qed.

Lemma availableElevators_sorted (r : FloorRequest.t) (b : t) :
  StronglySorted (λ p q : nat * Elevator.t, (p.1 < q.1)%nat)
                 (availableElevators r b).
Proof.
  unfold availableElevators.
  induction (elevators b) as [|x l IH] using rev_ind; [constructor|].
  rewrite imap_app, filter_app. apply StronglySorted_app. split; [|split].
  - intros p q Hp Hq.
    apply list_elem_of_filter in Hp as [_ Hp].
    apply elem_of_lookup_imap in Hp as (i & y & -> & Hi).
    apply lookup_lt_Some in Hi. simpl in *.
    apply list_elem_of_filter in Hq as [_ Hq].
    apply list_elem_of_singleton in Hq as ->. simpl. lia.
  - done.
  - simpl. rewrite filter_cons. case_decide; repeat constructor.
Qed.

(** [reduce] with [closer] returns the first elevator of least key. *)
Lemma foldl_closer_least (r : FloorRequest.t) (rest : list (nat * Elevator.t))
    (first : nat * Elevator.t) :
  StronglySorted (λ p q : nat * Elevator.t, (p.1 < q.1)%nat) (first :: rest) →
  ∀ q, q ∈ first :: rest →
    dispatch_key r (foldl (closer r) first rest).2 ≤ dispatch_key r q.2
    ∧ (dispatch_key r q.2 = dispatch_key r (foldl (closer r) first rest).2 →
       ((foldl (closer r) first rest).1 ≤ q.1)%nat).
Proof.
  induction rest as [|x rest IH] using rev_ind; intros Hsorted q Hq.
  - apply list_elem_of_singleton in Hq as ->. simpl. lia.
  - rewrite foldl_app. simpl. rewrite closer_by_key.
    change (first :: rest ++ [x]) with ((first :: rest) ++ [x]) in Hsorted, Hq.
    apply StronglySorted_app in Hsorted as (Hlt & Hsorted & _).
    specialize (IH Hsorted).
    pose proof (foldl_closer_elem r rest first) as Hprev.
    pose proof (Hlt _ x Hprev ltac:(left)) as Hprev_lt.
    apply elem_of_app in Hq as [Hq|Hq].
    + destruct (IH q Hq) as [Hle Hfirst].
      pose proof (Hlt _ x Hq ltac:(left)).
      case_decide; simpl in *; [lia|]. split; [done|]. done.
    + apply list_elem_of_singleton in Hq as ->.
      case_decide; simpl in *; lia.
Qed.

(** * The queue *)

Lemma removePendingRequest_effect (r : FloorRequest.t) (b : t) :
  let b' := after (removePendingRequest r b) in
  pendingRequests b' = without_first_call r (pendingRequests b)
  ∧ elevators b' = elevators b
  ∧ totalFloors b' = totalFloors b
  ∧ length (floors b') = length (floors b).
Proof.
  unfold removePendingRequest, without_first_call.
  destruct (list_find _ _) as [[index ?]|]; simpl.
  - destruct (negb _); [|done]. destruct (at_index _ _); [|done].
    case_decide; simpl; by rewrite length_alter.
  - destruct (negb _); [|done]. destruct (at_index _ _); [|done].
    case_decide; simpl; by rewrite length_alter.
Qed.

Lemma removePendingRequest_returns (r : FloorRequest.t) (b : t) (fl : Floor.t) :
  at_index (floors b) (FloorRequest.floor r) = Some fl →
  removePendingRequest r b = Normal (after (removePendingRequest r b)).
Proof.
  intros Hfl. unfold removePendingRequest.
  destruct (list_find _ _) as [[index ?]|]; simpl.
  - destruct (negb _); [|done]. rewrite Hfl. by case_decide.
  - destruct (negb _); [|done]. rewrite Hfl. by case_decide.
Qed.


Lemma filter_delete_found {A} (P : A → Prop) `{∀ x, Decision (P x)}
    (l : list A) (i : nat) (x : A) :
  list_find P l = Some (i, x) →
  length (filter P l) = S (length (filter P (delete i l))).
Proof.
  intros (Hi & HP & _)%list_find_Some.
  rewrite delete_take_drop. rewrite <- (take_drop_middle l i x Hi) at 1.
  rewrite !filter_app, filter_cons_True by done.
  rewrite !length_app. simpl. lia.
Qed.

Lemma availableElevators_nil (r : FloorRequest.t) (b : t) :
  availableElevators r b = []
  ↔ Forall (λ e, Elevator.canHandleRequest e r = false) (elevators b).
Proof.
  rewrite Forall_forall. split.
  - intros Hnil e [i Hi]%list_elem_of_lookup_1.
    destruct (Elevator.canHandleRequest e r) eqn:Hcan; [|done].
    assert (Hin : (i, e) ∈ availableElevators r b)
      by by apply elem_of_availableElevators.
    rewrite Hnil in Hin. by apply elem_of_nil in Hin.
  - intros Hnone. destruct (availableElevators r b) as [|[i e] rest] eqn:Hav;
      [done|].
    assert (Hin : (i, e) ∈ availableElevators r b) by (rewrite Hav; left).
    apply elem_of_availableElevators in Hin as [Hi Hcan].
    apply list_elem_of_lookup_2 in Hi. rewrite (Hnone e Hi) in Hcan. done.
Qed.

Lemma assignRequestToElevator_nobody (r : FloorRequest.t) (b : t) :
  availableElevators r b = [] → assignRequestToElevator r b = Normal b.
Proof. intros Hav. unfold assignRequestToElevator. by rewrite Hav. Qed.

Lemma assignRequestToElevator_queue (r : FloorRequest.t) (b : t) :
  availableElevators r b ≠ [] →
  pendingRequests (after (assignRequestToElevator r b))
  = without_first_call r (pendingRequests b).
Proof.
  intros Hav. unfold assignRequestToElevator.
  destruct (availableElevators r b) as [|first rest]; [done|].
  by destruct (removePendingRequest_effect r
    (with_elevators b
       (<[(foldl (closer r) first rest).1 :=
            Elevator.addDestination (FloorRequest.floor r)
              (foldl (closer r) first rest).2]> (elevators b)))) as (-> & _).
Qed.

(** What writing [addDestination f] into slot [i] does to the array. *)
Lemma assigned_slot (es : list Elevator.t) (i : nat) (e : Elevator.t) (f : Z) :
  es !! i = Some e →
  <[i := Elevator.addDestination f e]> es !! i
  = Some (Elevator.addDestination f e)
  ∧ Elevator.id (Elevator.addDestination f e) = Elevator.id e
  ∧ Elevator.currentFloor (Elevator.addDestination f e) = Elevator.currentFloor e
  ∧ (∀ x, x ∈ Elevator.destinationFloors (Elevator.addDestination f e)
          ↔ x = f ∨ x ∈ Elevator.destinationFloors e)
  ∧ (∀ j, j ≠ i → <[i := Elevator.addDestination f e]> es !! j = es !! j).
Proof.
  intros Hi. destruct (addDestination_fields f e) as (Hid & Hcur & Hds).
  split; [apply list_lookup_insert_eq; by eapply lookup_lt_Some|].
  split; [done|]. split; [done|]. split.
  - intros x. rewrite Hds. apply elem_of_NumberSet_add.
  - intros j Hj. by apply list_lookup_insert_ne.
Qed.

(** The elevators [assignRequestToElevator] leaves when somebody can
    serve: one slot that can handle the call received [addDestination]. *)
Lemma assignRequestToElevator_elevators (r : FloorRequest.t) (b : t) :
  availableElevators r b ≠ [] →
  ∃ i e, elevators b !! i = Some e
    ∧ Elevator.canHandleRequest e r = true
    ∧ elevators (after (assignRequestToElevator r b))
      = <[i := Elevator.addDestination (FloorRequest.floor r) e]> (elevators b).
Proof.
  intros Hav. unfold assignRequestToElevator.
  destruct (availableElevators r b) as [|first rest] eqn:Heq; [done|].
  destruct (assigned_elevator_lookup r b first rest Heq) as [Hi Hcan].
  exists (foldl (closer r) first rest).1, (foldl (closer r) first rest).2.
  split; [done|]. split; [done|].
  by destruct (removePendingRequest_effect r
    (with_elevators b
       (<[(foldl (closer r) first rest).1 :=
            Elevator.addDestination (FloorRequest.floor r)
              (foldl (closer r) first rest).2]> (elevators b))))
    as (_ & -> & _).
Qed.

(** * Properties of the specification *)

(** C1, as stated, fails: with the only car above floor 2 and travelling
    up, a call (2, UP) stays queued, and calling again queues a second
    copy. *)
Lemma C1_counterexample_duplicate_call_queued_twice :
  let b := run [ RequestElevatorFloor 0 5; Update; Update; Update;
                 RequestElevator 2 Direction.UP ] (new 10 1) in
  in_building b 2
  ∧ outstanding 2 Direction.UP b = 1%nat
  ∧ outstanding 2 Direction.UP (after (requestElevator 2 Direction.UP b)) = 2%nat
  ∧ pendingRequests (after (requestElevator 2 Direction.UP b))
    = [ FloorRequest.mk 2 Direction.UP; FloorRequest.mk 2 Direction.UP ].
Proof.
  split; [|split; [|split]].
  - unfold in_building.
    replace (totalFloors _) with 10 by (vm_compute; reflexivity). lia.
  - vm_compute. reflexivity.
  - vm_compute. reflexivity.
  - vm_compute. reflexivity.
Qed.

(** C1, amended: [requestElevator] for an in-range, physically possible
    pair appends the call without looking for a duplicate.  If some
    elevator can serve the call, it is assigned at once: one elevator that
    can serve it has the floor among its destinations afterwards (its
    former destinations and its floor kept), no other elevator changes,
    and the number of queued calls for the pair is what it was.  If none
    can, the call joins the end of the queue, no elevator changes, and the
    number of queued calls for the pair grows by one. *)
Theorem C1_requestElevator_appends_without_duplicate_check
    (b : t) (f : Z) (d : Direction.t) :
  in_building b f →
  ¬ (f = 0 ∧ d = Direction.DOWN) →
  ¬ (f = totalFloors b - 1 ∧ d = Direction.UP) →
  length (floors b) = Z.to_nat (totalFloors b) →
  let r := FloorRequest.mk f d in
  let b' := after (requestElevator f d b) in
  (Exists (λ e, Elevator.canHandleRequest e r = true) (elevators b) →
   outstanding f d b' = outstanding f d b
   ∧ ∃ i e e',
       elevators b !! i = Some e
       ∧ Elevator.canHandleRequest e r = true
       ∧ elevators b' !! i = Some e'
       ∧ f ∈ Elevator.destinationFloors e'
       ∧ (∀ x, x ∈ Elevator.destinationFloors e'
               ↔ x = f ∨ x ∈ Elevator.destinationFloors e)
       ∧ Elevator.currentFloor e' = Elevator.currentFloor e
       ∧ (∀ j, j ≠ i → elevators b' !! j = elevators b !! j))
  ∧ (Forall (λ e, Elevator.canHandleRequest e r = false) (elevators b) →
     pendingRequests b' = pendingRequests b ++ [r]
     ∧ outstanding f d b' = S (outstanding f d b)
     ∧ elevators b' = elevators b).
Proof.
  intros Hf Hdown Hup Hlen r b'. unfold in_building in Hf.
  subst b'. unfold requestElevator.
  rewrite decide_False by lia. rewrite !decide_False by done.
  fold r.
  destruct (at_index _ f) as [fl|] eqn:Hfl.
  2:{ exfalso. unfold at_index in Hfl. simpl in Hfl.
      rewrite decide_True in Hfl by lia.
      apply lookup_ge_None in Hfl. lia. }
  set (b2 := if decide (d = Direction.UP) then _ else _).
  assert (Hb2 : elevators b2 = elevators b
                ∧ pendingRequests b2 = pendingRequests b ++ [r]).
  { subst b2. by case_decide. }
  destruct Hb2 as [Hel Hpen]. clearbody b2.
  assert (Hav : availableElevators r b2 = availableElevators r b).
  { unfold availableElevators. by rewrite Hel. }
  assert (Hcount : length (filter (same_call r) (pendingRequests b2))
                   = S (outstanding f d b)).
  { rewrite Hpen, filter_app, length_app. unfold outstanding. fold r.
    rewrite filter_cons_True by done. simpl. lia. }
  split.
  - intros Hsome. assert (Hne : availableElevators r b2 ≠ []).
    { rewrite Hav. intros Hnil%availableElevators_nil.
      apply Exists_exists in Hsome as (e & He & Hcan).
      rewrite Forall_forall in Hnil. rewrite (Hnil e He) in Hcan. done. }
    split.
    + unfold outstanding at 1. fold r.
      rewrite (assignRequestToElevator_queue r b2 Hne).
      unfold without_first_call.
      destruct (list_find (same_call r) (pendingRequests b2))
        as [[i x]|] eqn:Hfind.
      * apply filter_delete_found in Hfind. lia.
      * exfalso. apply list_find_None in Hfind.
        rewrite Hpen, Forall_app, Forall_singleton in Hfind.
        by destruct Hfind as [_ []].
    + destruct (assignRequestToElevator_elevators r b2 Hne)
        as (i & e & Hi & Hcan & Hes).
      rewrite Hel in Hi, Hes. simpl in Hes.
      destruct (assigned_slot (elevators b) i e f Hi)
        as (Hslot & _ & Hcur & Hds & Hothers).
      exists i, e, (Elevator.addDestination f e). rewrite Hes.
      split; [done|]. split; [done|]. split; [done|].
      split; [apply Hds; by left|]. done.
  - intros Hnone%availableElevators_nil. rewrite <- Hav in Hnone.
    rewrite (assignRequestToElevator_nobody r b2 Hnone). simpl.
    split; [done|]. split; [exact Hcount|done].
Qed.

Lemma C1_requestElevator_appends_witness :
  let b := run [ RequestElevatorFloor 0 5; Update; Update; Update;
                 RequestElevator 2 Direction.UP ] (new 10 1) in
  let r := FloorRequest.mk 2 Direction.UP in
  let b' := after (requestElevator 2 Direction.UP b) in
  (Exists (λ e, Elevator.canHandleRequest e r = true) (elevators b) →
   outstanding 2 Direction.UP b' = outstanding 2 Direction.UP b
   ∧ ∃ i e e',
       elevators b !! i = Some e
       ∧ Elevator.canHandleRequest e r = true
       ∧ elevators b' !! i = Some e'
       ∧ 2 ∈ Elevator.destinationFloors e'
       ∧ (∀ x, x ∈ Elevator.destinationFloors e'
               ↔ x = 2 ∨ x ∈ Elevator.destinationFloors e)
       ∧ Elevator.currentFloor e' = Elevator.currentFloor e
       ∧ (∀ j, j ≠ i → elevators b' !! j = elevators b !! j))
  ∧ (Forall (λ e, Elevator.canHandleRequest e r = false) (elevators b) →
     pendingRequests b' = pendingRequests b ++ [r]
     ∧ outstanding 2 Direction.UP b' = S (outstanding 2 Direction.UP b)
     ∧ elevators b' = elevators b).
Proof.
  apply (C1_requestElevator_appends_without_duplicate_check
           (run [ RequestElevatorFloor 0 5; Update; Update; Update;
                  RequestElevator 2 Direction.UP ] (new 10 1))
           2 Direction.UP).
  - unfold in_building.
    replace (totalFloors _) with 10 by (vm_compute; reflexivity). lia.
  - intros [_ ?]. discriminate.
  - intros [Htop _]. vm_compute in Htop. discriminate.
  - vm_compute. reflexivity.
Defined.

Lemma kept_new (tf te : Z) (Q : Elevator.t → Prop) :
  (∀ i, Q (Elevator.new i)) →
  kept tf te (Floor.number <$> floors (new tf te))
       (Elevator.id <$> elevators (new tf te)) Q (new tf te).
Proof.
  intros HQ. repeat split; simpl; [|constructor].
  unfold array_from. apply Forall_fmap, Forall_forall. intros i _. apply HQ.
Qed.

(** C2, as stated, fails: a panel request for the floor the car stands on
    leaves a destination behind while the direction stays IDLE. *)
Lemma C2_counterexample_idle_with_destination :
  ∃ e, elevators (after (requestElevatorFloor 0 0 (new 10 4))) !! 0%nat = Some e
    ∧ Elevator.direction e = Direction.IDLE
    ∧ Elevator.destinationFloors e = [0]
    ∧ ¬ (Elevator.direction e = Direction.IDLE
         ↔ Elevator.destinationFloors e = []).
Proof.
  eexists. split; [vm_compute; reflexivity|]. simpl.
  split; [done|]. split; [done|]. intros [Hidle _]. by specialize (Hidle eq_refl).
Qed.

(** C2, amended: after [addDestination], after [removeDestination], after a
    [move] that found a stop, and for every elevator after every history
    of building operations, direction is IDLE if and only if
    destinationFloors is empty or the stop [getNextDestination] selects is
    the current floor.  (So empty destinationFloors still gives IDLE.) *)
Theorem C2_idle_iff_nowhere_to_travel :
  (∀ f e, direction_settled (Elevator.addDestination f e))
  ∧ (∀ f e, direction_settled (Elevator.removeDestination f e))
  ∧ (∀ e, Elevator.move e = (false, e) ∨ direction_settled (Elevator.move e).2)
  ∧ (∀ tf te history,
       Forall direction_settled (elevators (run history (new tf te)))).
Proof.
  split; [|split; [|split]].
  - intros f e. apply updateDirection_settled.
  - intros f e. apply updateDirection_settled.
  - intros e. unfold Elevator.move.
    destruct (Elevator.getNextDestination e); [right|left; done].
    apply updateDirection_settled.
  - intros tf te history.
    eapply (kept_run tf te _ _ direction_settled).
    + apply move_settled.
    + intros f e _ _. apply updateDirection_settled.
    + intros e _. unfold direction_settled. simpl. tauto.
    + apply kept_new. intros i. unfold direction_settled. simpl. tauto.
Qed.

(** C4, as stated, fails: when the selected stop is the current floor,
    [move] returns true although the car does not change floor. *)
Lemma C4_counterexample_true_without_movement :
  let e := Elevator.mk 0 0 [0] ElevatorState.IDLE Direction.IDLE in
  elevators (after (requestElevatorFloor 0 0 (new 10 4))) !! 0%nat = Some e
  ∧ Elevator.getNextDestination e = Some 0
  ∧ (Elevator.move e).1 = true
  ∧ Elevator.currentFloor (Elevator.move e).2 = Elevator.currentFloor e
  ∧ ¬ (Elevator.currentFloor (Elevator.move e).2 = Elevator.currentFloor e + 1
       ∨ Elevator.currentFloor (Elevator.move e).2 = Elevator.currentFloor e - 1).
Proof.
  repeat split; try (vm_compute; reflexivity).
  intros [H|H]; vm_compute in H; discriminate.
Qed.

(** C4, amended: [move] returns false and changes nothing when there is no
    next destination, that is when destinationFloors is empty.  Otherwise
    it returns true; currentFloor moves one floor toward the selected stop,
    or stays when the stop is the current floor; the stop is removed from
    destinationFloors when currentFloor now equals it; and direction is
    recomputed. *)
Theorem C4_move_one_step_toward_next (e : Elevator.t) :
  match Elevator.getNextDestination e with
  | None => Elevator.destinationFloors e = [] ∧ Elevator.move e = (false, e)
  | Some next =>
    let e' := (Elevator.move e).2 in
    next ∈ Elevator.destinationFloors e
    ∧ (Elevator.move e).1 = true
    ∧ Elevator.currentFloor e'
      = Elevator.currentFloor e + Z.sgn (next - Elevator.currentFloor e)
    ∧ Elevator.destinationFloors e'
      = (if decide (Elevator.currentFloor e' = next)
         then NumberSet.delete next (Elevator.destinationFloors e)
         else Elevator.destinationFloors e)
    ∧ direction_settled e'
    ∧ Elevator.id e' = Elevator.id e
  end.
Proof.
  destruct (Elevator.getNextDestination e) as [next|] eqn:Hn.
  - destruct (move_fields e next Hn) as (Hret & Hid & Hcur & Hds).
    split; [by apply getNextDestination_elem|].
    do 3 (split; [done|]). split; [|done].
    unfold Elevator.move. rewrite Hn. apply updateDirection_settled.
  - apply getNextDestination_None in Hn. split; [done|]. by apply move_nowhere.
Qed.

(** C3, evaluated where the code departs from it: before the sixth tick of
    [busy_morning] the queue holds (1, UP), (4, DOWN), (5, DOWN).  In the
    second phase of that tick (4, DOWN) is assigned and spliced out of the
    queue while [forEach] is walking it; (5, DOWN) slides into the slot
    just visited and is never tried, although car 0, at floor 6 and
    travelling down, can serve it.  It is still queued when the phase
    ends. *)
Theorem C3_update_skips_a_queued_call :
  let b := run busy_morning (new 10 2) in
  let moved := with_elevators b ((λ e, (Elevator.move e).2) <$> elevators b) in
  let skipped := FloorRequest.mk 5 Direction.DOWN in
  pendingRequests moved
  = [ FloorRequest.mk 1 Direction.UP; FloorRequest.mk 4 Direction.DOWN; skipped ]
  ∧ ∃ b2,
      forEachPending (length (pendingRequests moved)) 0 moved
      = ([ FloorRequest.mk 1 Direction.UP; FloorRequest.mk 4 Direction.DOWN ],
         Normal b2)
      ∧ pendingRequests b2 = [ FloorRequest.mk 1 Direction.UP; skipped ]
      ∧ (∃ e, elevators b2 !! 0%nat = Some e
              ∧ Elevator.canHandleRequest e skipped = true)
      ∧ update b = checkElevatorArrivals b2
      ∧ skipped ∈ pendingRequests (after (update b)).
Proof.
  split; [vm_compute; reflexivity|].
  eexists. split; [vm_compute; reflexivity|].
  split; [vm_compute; reflexivity|].
  split; [eexists; split; vm_compute; reflexivity|].
  split; [vm_compute; reflexivity|].
  vm_compute. right; left.
Qed.

(** Two runs of the model against the dispatch rules.  From rest, a call
    (5, UP) goes to car 0, which reaches floor 5 on the fifth tick and is
    idle again with the button released.  With car 0 moving at floor 2 and
    car 1 idle at floor 4, a call (3, UP) is one floor from both and goes
    to the idle car 1. *)
Example call_from_rest :
  let b := after (requestElevator 5 Direction.UP (new 10 4)) in
  elevators b !! 0%nat
  = Some (Elevator.mk 0 0 [5] ElevatorState.MOVING_UP Direction.UP)
  ∧ elevators (run [Update; Update; Update; Update; Update] b) !! 0%nat
    = Some (Elevator.mk 0 5 [] ElevatorState.IDLE Direction.IDLE)
  ∧ Floor.upButtonPressed
      <$> at_index (floors (run [Update; Update; Update; Update; Update] b)) 5
    = Some false.
Proof. repeat split; vm_compute; reflexivity. Qed.

Example idle_car_wins_the_tie :
  let b := run [ RequestElevatorFloor 1 4; Update; Update; Update; Update;
                 RequestElevatorFloor 0 9; Update; Update ] (new 10 2) in
  elevators b
  = [ Elevator.mk 0 2 [9] ElevatorState.MOVING_UP Direction.UP;
      Elevator.mk 1 4 [] ElevatorState.IDLE Direction.IDLE ]
  ∧ elevators (after (requestElevator 3 Direction.UP b))
    = [ Elevator.mk 0 2 [9] ElevatorState.MOVING_UP Direction.UP;
        Elevator.mk 1 4 [3] ElevatorState.MOVING_DOWN Direction.DOWN ].
Proof. split; vm_compute; reflexivity. Qed.

(** C5: [canHandleRequest] holds exactly for an idle elevator, for one
    moving UP asked for an UP call at or above its floor, and for one
    moving DOWN asked for a DOWN call at or below its floor.  When no
    elevator can handle the call, [assignRequestToElevator] changes
    nothing.  Otherwise it adds the call's floor to one elevator that can
    handle it: afterwards the floor is among that elevator's destinations,
    beside the ones it had, its floor and id are what they were, and no
    other elevator has changed.  That elevator minimizes
    |currentFloor - call.floor| among those that can handle the call; is
    idle if one of them at that distance is idle; and is the first in the
    array among those of the same distance and idleness. *)
Theorem C5_assign_to_nearest_servable (b : t) (r : FloorRequest.t) :
  (∀ e, Elevator.canHandleRequest e r = true
        ↔ Elevator.state e = ElevatorState.IDLE
          ∨ (Elevator.direction e = Direction.UP
             ∧ FloorRequest.direction r = Direction.UP
             ∧ Elevator.currentFloor e ≤ FloorRequest.floor r)
          ∨ (Elevator.direction e = Direction.DOWN
             ∧ FloorRequest.direction r = Direction.DOWN
             ∧ FloorRequest.floor r ≤ Elevator.currentFloor e))
  ∧ (Forall (λ e, Elevator.canHandleRequest e r = false) (elevators b) →
     assignRequestToElevator r b = Normal b)
  ∧ (Exists (λ e, Elevator.canHandleRequest e r = true) (elevators b) →
     ∃ i e,
       elevators b !! i = Some e
       ∧ Elevator.canHandleRequest e r = true
       ∧ elevators (after (assignRequestToElevator r b))
         = <[i := Elevator.addDestination (FloorRequest.floor r) e]> (elevators b)
       ∧ (∃ e1, elevators (after (assignRequestToElevator r b)) !! i = Some e1
                ∧ FloorRequest.floor r ∈ Elevator.destinationFloors e1
                ∧ (∀ x, x ∈ Elevator.destinationFloors e1
                        ↔ x = FloorRequest.floor r
                          ∨ x ∈ Elevator.destinationFloors e)
                ∧ Elevator.currentFloor e1 = Elevator.currentFloor e
                ∧ Elevator.id e1 = Elevator.id e)
       ∧ (∀ j, j ≠ i →
               elevators (after (assignRequestToElevator r b)) !! j
               = elevators b !! j)
       ∧ ∀ j e', elevators b !! j = Some e' →
           Elevator.canHandleRequest e' r = true →
           Z.abs (Elevator.currentFloor e - FloorRequest.floor r)
           ≤ Z.abs (Elevator.currentFloor e' - FloorRequest.floor r)
           ∧ (Z.abs (Elevator.currentFloor e' - FloorRequest.floor r)
              = Z.abs (Elevator.currentFloor e - FloorRequest.floor r) →
              Elevator.state e' = ElevatorState.IDLE →
              Elevator.state e = ElevatorState.IDLE)
           ∧ (Z.abs (Elevator.currentFloor e' - FloorRequest.floor r)
              = Z.abs (Elevator.currentFloor e - FloorRequest.floor r) →
              (Elevator.state e' = ElevatorState.IDLE
               ↔ Elevator.state e = ElevatorState.IDLE) →
              (i ≤ j)%nat)).
Proof.
  split; [|split].
  - intros e. unfold Elevator.canHandleRequest.
    repeat case_decide; split; try done; try tauto.
  - intros Hnone%availableElevators_nil. by apply assignRequestToElevator_nobody.
  - intros Hsome.
    destruct (availableElevators r b) as [|first rest] eqn:Hav.
    { apply availableElevators_nil in Hav.
      apply Exists_exists in Hsome as (e & He & Hcan).
      rewrite Forall_forall in Hav. rewrite (Hav e He) in Hcan. done. }
    destruct (assigned_elevator_lookup r b first rest Hav) as [Hi Hcan].
    pose proof (availableElevators_sorted r b) as Hsorted. rewrite Hav in Hsorted.
    pose proof (foldl_closer_least r rest first Hsorted) as Hleast.
    exists (foldl (closer r) first rest).1, (foldl (closer r) first rest).2.
    assert (Hes : elevators (after (assignRequestToElevator r b))
                  = <[(foldl (closer r) first rest).1 :=
                        Elevator.addDestination (FloorRequest.floor r)
                          (foldl (closer r) first rest).2]> (elevators b)).
    { unfold assignRequestToElevator. rewrite Hav.
      by destruct (removePendingRequest_effect r
        (with_elevators b
           (<[(foldl (closer r) first rest).1 :=
                Elevator.addDestination (FloorRequest.floor r)
                  (foldl (closer r) first rest).2]> (elevators b))))
        as (_ & -> & _). }
    destruct (assigned_slot (elevators b) _ _ (FloorRequest.floor r) Hi)
      as (Hslot & Hid & Hcur & Hds & Hothers).
    split; [done|]. split; [done|]. split; [done|]. rewrite Hes.
    split; [|split; [done|]].
    + eexists. split; [exact Hslot|]. split; [apply Hds; by left|]. done.
    + intros j e' Hj Hcan'.
      assert (Hin : (j, e') ∈ first :: rest).
      { rewrite <- Hav. by apply elem_of_availableElevators. }
      destruct (Hleast _ Hin) as [Hle Hfirst]. simpl in Hle, Hfirst.
      unfold dispatch_key, Elevator.getDistanceToRequest in Hle, Hfirst.
      destruct (decide (Elevator.state e' = ElevatorState.IDLE)),
               (decide (Elevator.state (foldl (closer r) first rest).2
                        = ElevatorState.IDLE));
        (split; [lia|split]); intros; try done; try tauto; try lia;
        apply Hfirst; lia.
Qed.

(** C6: in a building with at least one floor, after every history of
    building operations from initialization every elevator's currentFloor
    lies in [0, totalFloors) (and so does every floor it is to visit); and
    one [move] of any elevator changes currentFloor by at most one
    floor. *)
Theorem C6_cars_stay_inside_the_building (tf te : Z) (history : list command) :
  1 ≤ tf →
  Forall (λ e, 0 ≤ Elevator.currentFloor e < tf
               ∧ Forall (λ f, 0 ≤ f < tf) (Elevator.destinationFloors e))
         (elevators (run history (new tf te)))
  ∧ ∀ e, Z.abs (Elevator.currentFloor (Elevator.move e).2
                - Elevator.currentFloor e) ≤ 1.
Proof.
  intros Htf. split; [|apply move_at_most_one_floor].
  eapply (kept_run tf te _ _ (within tf)).
  - apply move_within.
  - apply addDestination_within.
  - intros e _. split; simpl; [lia|constructor].
  - apply kept_new. intros i. split; simpl; [lia|constructor].
Qed.

Lemma C6_cars_stay_inside_witness :
  Forall (λ e, 0 ≤ Elevator.currentFloor e < 10
               ∧ Forall (λ f, 0 ≤ f < 10) (Elevator.destinationFloors e))
         (elevators (run busy_morning (new 10 2)))
  ∧ ∀ e, Z.abs (Elevator.currentFloor (Elevator.move e).2
                - Elevator.currentFloor e) ≤ 1.
Proof. apply (C6_cars_stay_inside_the_building 10 2 busy_morning). lia. Defined.

(** C7: for an elevator whose direction is UP, [getNextDestination]
    returns the least destination above currentFloor when there is one;
    for one whose direction is DOWN, the greatest destination below
    currentFloor when there is one.  An elevator at floor 3 moving UP with
    destinations 5 and 7, inserted in either order, is at floor 5 with
    only 7 left after two moves, and at floor 7 with nothing left after
    four. *)
Theorem C7_next_stop_is_nearest_ahead :
  (∀ e f,
     Elevator.direction e = Direction.UP →
     f ∈ Elevator.destinationFloors e → Elevator.currentFloor e < f →
     ∃ m, Elevator.getNextDestination e = Some m
       ∧ m ∈ Elevator.destinationFloors e ∧ Elevator.currentFloor e < m
       ∧ ∀ x, x ∈ Elevator.destinationFloors e →
              Elevator.currentFloor e < x → m ≤ x)
  ∧ (∀ e f,
       Elevator.direction e = Direction.DOWN →
       f ∈ Elevator.destinationFloors e → f < Elevator.currentFloor e →
       ∃ m, Elevator.getNextDestination e = Some m
         ∧ m ∈ Elevator.destinationFloors e ∧ m < Elevator.currentFloor e
         ∧ ∀ x, x ∈ Elevator.destinationFloors e →
                x < Elevator.currentFloor e → x ≤ m)
  ∧ (∀ i ds, ds = [5; 7] ∨ ds = [7; 5] →
       let e := Elevator.mk i 3 ds ElevatorState.MOVING_UP Direction.UP in
       let after_moves n := Nat.iter n (λ e, (Elevator.move e).2) e in
       Elevator.currentFloor (after_moves 1%nat) = 4
       ∧ Elevator.destinationFloors (after_moves 1%nat) = ds
       ∧ Elevator.currentFloor (after_moves 2%nat) = 5
       ∧ Elevator.destinationFloors (after_moves 2%nat) = [7]
       ∧ Elevator.currentFloor (after_moves 3%nat) = 6
       ∧ Elevator.destinationFloors (after_moves 3%nat) = [7]
       ∧ Elevator.currentFloor (after_moves 4%nat) = 7
       ∧ Elevator.destinationFloors (after_moves 4%nat) = []
       ∧ Elevator.direction (after_moves 4%nat) = Direction.IDLE).
Proof.
  split; [|split].
  - intros e f Hdir Hf Hlt.
    destruct (Elevator.destinationFloors e) as [|first rest] eqn:Hds;
      [by apply elem_of_nil in Hf|].
    destruct (getNextDestination_cases e first rest Hds) as (m & Hm & Hin & Hcase).
    rewrite Hds in Hin, Hcase. exists m. split; [done|]. split; [done|].
    destruct Hcase as [(_ & ? & ?)|[(? & _)|(_ & Hno & _)]].
    + done.
    + congruence.
    + by destruct (Hno Hdir f Hf).
  - intros e f Hdir Hf Hlt.
    destruct (Elevator.destinationFloors e) as [|first rest] eqn:Hds;
      [by apply elem_of_nil in Hf|].
    destruct (getNextDestination_cases e first rest Hds) as (m & Hm & Hin & Hcase).
    rewrite Hds in Hin, Hcase. exists m. split; [done|]. split; [done|].
    destruct Hcase as [(? & _)|[(_ & ? & ?)|(_ & _ & Hno)]].
    + congruence.
    + done.
    + by destruct (Hno Hdir f Hf).
  - intros i ds [-> | ->]; vm_compute; repeat split; reflexivity.
Qed.

Lemma C7_next_stop_witness :
  ∃ m, Elevator.getNextDestination
         (Elevator.mk 0 3 [7; 5] ElevatorState.MOVING_UP Direction.UP) = Some m
    ∧ m ∈ [7; 5] ∧ 3 < m ∧ ∀ x, x ∈ [7; 5] → 3 < x → m ≤ x.
Proof.
  apply (proj1 C7_next_stop_is_nearest_ahead
           (Elevator.mk 0 3 [7; 5] ElevatorState.MOVING_UP Direction.UP) 7).
  - reflexivity.
  - simpl. left.
  - simpl. lia.
Defined.

(** C8: [requestElevator] with a floor outside [0, totalFloors), or for
    (0, DOWN), or for (totalFloors - 1, UP), returns normally and leaves
    the building as it was: queue, buttons and elevators untouched. *)
Theorem C8_requestElevator_rejects_silently (b : t) (f : Z) (d : Direction.t) :
  f < 0 ∨ totalFloors b ≤ f
  ∨ (f = 0 ∧ d = Direction.DOWN)
  ∨ (f = totalFloors b - 1 ∧ d = Direction.UP) →
  requestElevator f d b = Normal b.
Proof.
  intros Hbad. unfold requestElevator.
  destruct (decide (f < 0 ∨ totalFloors b ≤ f)); [done|].
  destruct (decide (f = 0 ∧ d = Direction.DOWN)); [done|].
  destruct (decide (f = totalFloors b - 1 ∧ d = Direction.UP)); [done|].
  tauto.
Qed.

Lemma C8_requestElevator_rejects_witness :
  requestElevator 9 Direction.UP (run busy_morning (new 10 2))
  = Normal (run busy_morning (new 10 2)).
Proof.
  apply (C8_requestElevator_rejects_silently
           (run busy_morning (new 10 2)) 9 Direction.UP).
  right. right. right. split; [|reflexivity].
  vm_compute. reflexivity.
Defined.

(** Mapping every object of an array to the fresh object of its key
    rebuilds [array_from], when the keys are those of [array_from]. *)
Lemma rebuild_array_from {A} (key : A → Z) (make : Z → A) (f : A → A)
    (n : Z) (l : list A) :
  (∀ x, f x = make (key x)) →
  (∀ i, key (make i) = i) →
  key <$> l = key <$> array_from n make →
  f <$> l = array_from n make.
Proof.
  intros Hf Hkey Hl.
  transitivity (make <$> (key <$> l)).
  { rewrite <- list_fmap_compose. apply list_fmap_ext. intros _ x _. apply Hf. }
  rewrite Hl. unfold array_from. rewrite <- !list_fmap_compose.
  apply list_fmap_ext. intros _ i _. simpl. by rewrite Hkey.
Qed.

(** C9: after any history of operations, [reset] returns normally and the
    building it leaves is the initial one: every elevator at floor 0 with
    no destination, IDLE in state and direction; every up and down button
    released; the queue empty. *)
Theorem C9_reset_restores_the_initial_state (tf te : Z) (history : list command) :
  let b := run history (new tf te) in
  reset b = Normal (new tf te)
  ∧ Forall (λ e, Elevator.currentFloor e = 0
                 ∧ Elevator.destinationFloors e = []
                 ∧ Elevator.direction e = Direction.IDLE
                 ∧ Elevator.state e = ElevatorState.IDLE)
           (elevators (after (reset b)))
  ∧ Forall (λ fl, Floor.upButtonPressed fl = false
                  ∧ Floor.downButtonPressed fl = false)
           (floors (after (reset b)))
  ∧ pendingRequests (after (reset b)) = [].
Proof.
  intros b.
  assert (Hb : kept tf te (Floor.number <$> floors (new tf te))
                 (Elevator.id <$> elevators (new tf te)) (λ _, True) b).
  { apply kept_run; [done|done|done|]. by apply kept_new. }
  destruct Hb as (Htf & Hte & Hnum & Hids & _).
  split; [|split; [|split]].
  - unfold reset. f_equal. unfold new. rewrite Htf, Hte. f_equal.
    + by apply (rebuild_array_from Floor.number).
    + by apply (rebuild_array_from Elevator.id).
  - simpl. apply Forall_fmap, Forall_forall. by intros e _.
  - simpl. apply Forall_fmap, Forall_forall. by intros fl _.
  - done.
Qed.

Lemma on_floor_at (i : Z) (method : Floor.t → Floor.t) (b : t) (fl : Floor.t) :
  at_index (floors b) i = Some fl →
  at_index (floors (on_floor i method b)) i = Some (method fl).
Proof.
  intros [Hi Hfl]%at_index_Some. apply at_index_Some. split; [done|].
  simpl. by rewrite list_lookup_alter_eq, Hfl.
Qed.



(** * Elevator: staying on course *)

Section ElevatorCourse.
Import Elevator.

Lemma updateDirection_by_next (e : t) :
  updateDirection e
  = match getNextDestination e with
    | None => with_motion e ElevatorState.IDLE Direction.IDLE
    | Some n =>
      if decide (currentFloor e < n)
      then with_motion e ElevatorState.MOVING_UP Direction.UP
      else if decide (n < currentFloor e)
      then with_motion e ElevatorState.MOVING_DOWN Direction.DOWN
      else with_motion e ElevatorState.IDLE Direction.IDLE
    end.
Proof.
  unfold updateDirection. case_decide as Hlen; [|done].
  apply length_zero_iff_nil, getNextDestination_None in Hlen. by rewrite Hlen.
Qed.

Lemma getNextDestination_with_motion_None (e : t) (s : ElevatorState.t)
    (d : Direction.t) :
  getNextDestination e = None → getNextDestination (with_motion e s d) = None.
Proof. rewrite !getNextDestination_None. done. Qed.

(** The stop selected after [updateDirection] lies on the same side of the
    current floor as the stop selected before. *)
Lemma updateDirection_keeps_side (e : t) (n : Z) :
  getNextDestination e = Some n →
  ∃ n', getNextDestination (updateDirection e) = Some n'
    ∧ (currentFloor e < n → currentFloor e < n')
    ∧ (n < currentFloor e → n' < currentFloor e)
    ∧ (n = currentFloor e → n' = currentFloor e).
Proof.
  intros Hn. pose proof (getNextDestination_elem e n Hn) as Hin.
  destruct (destinationFloors e) as [|first rest] eqn:Hds;
    [by apply elem_of_nil in Hin|].
  destruct (getNextDestination_cases e first rest Hds) as (m & Hm & _ & Hcase).
  assert (m = n) as -> by congruence.
  destruct (updateDirection_fields e) as (_ & Hcur & Hds').
  assert (Hds'' : destinationFloors (updateDirection e) = first :: rest)
    by congruence.
  destruct (getNextDestination_cases _ first rest Hds'')
    as (n' & Hn' & _ & Hcase').
  rewrite Hcur, Hds', Hds in Hcase'. rewrite Hds in Hcase.
  exists n'. split; [done|].
  assert (Hdir : direction (updateDirection e) =
                 if decide (currentFloor e < n) then Direction.UP
                 else if decide (n < currentFloor e) then Direction.DOWN
                 else Direction.IDLE).
  { rewrite updateDirection_by_next, Hn. repeat case_decide; done. }
  rewrite Hdir in Hcase'. clear Hdir.
  destruct (decide (currentFloor e < n)) as [Hup|Hnup].
  - split; [|split; intros; lia]. intros _.
    destruct Hcase' as [(_ & ? & _)|[(? & _)|(_ & Hno & _)]]; [done|done|].
    by destruct (Hno eq_refl n Hin).
  - destruct (decide (n < currentFloor e)) as [Hdown|Hndown].
    + split; [intros; lia|]. split; [|intros; lia]. intros _.
      destruct Hcase' as [(? & _)|[(_ & ? & _)|(_ & _ & Hno)]]; [done|done|].
      by destruct (Hno eq_refl n Hin).
    + split; [intros; lia|]. split; [intros; lia|]. intros _.
      destruct Hcase' as [(? & _)|[(? & _)|(-> & _)]]; [done|done|].
      destruct Hcase as [(_ & ? & _)|[(_ & ? & _)|(-> & _)]]; lia.
Qed.

Lemma updateDirection_idempotent (e : t) :
  updateDirection (updateDirection e) = updateDirection e.
Proof.
  rewrite (updateDirection_by_next (updateDirection e)).
  destruct (updateDirection_fields e) as (_ & Hcur & _).
  destruct (getNextDestination e) as [n|] eqn:Hn.
  - destruct (updateDirection_keeps_side e n Hn) as (n' & -> & Hup & Hdown & Heq).
    rewrite Hcur. rewrite updateDirection_by_next, Hn.
    destruct (decide (currentFloor e < n)).
    { rewrite decide_True by auto. done. }
    destruct (decide (n < currentFloor e)).
    { rewrite decide_False by (specialize (Hdown ltac:(done)); lia).
      rewrite decide_True by auto. done. }
    assert (n' = currentFloor e) as -> by (apply Heq; lia).
    rewrite !decide_False by lia. done.
  - rewrite (updateDirection_by_next e), Hn.
    by rewrite (getNextDestination_with_motion_None e _ _ Hn).
Qed.

Lemma on_course_updateDirection (e : t) : on_course (updateDirection e).
Proof. apply updateDirection_idempotent. Qed.

Lemma on_course_move (e : t) : on_course e → on_course (move e).2.
Proof.
  intros He. unfold move. destruct (getNextDestination e); [|done].
  apply on_course_updateDirection.
Qed.

(** What being on course says about state, direction and the next stop. *)
Lemma on_course_spec (e : t) :
  on_course e ↔
  match getNextDestination e with
  | None => state e = ElevatorState.IDLE ∧ direction e = Direction.IDLE
  | Some n =>
    (currentFloor e < n ∧ state e = ElevatorState.MOVING_UP
     ∧ direction e = Direction.UP)
    ∨ (n < currentFloor e ∧ state e = ElevatorState.MOVING_DOWN
       ∧ direction e = Direction.DOWN)
    ∨ (n = currentFloor e ∧ state e = ElevatorState.IDLE
       ∧ direction e = Direction.IDLE)
  end.
Proof.
  unfold on_course. rewrite updateDirection_by_next.
  destruct e as [i c ds s d]. simpl.
  destruct (getNextDestination _) as [n|]; unfold with_motion; simpl.
  - repeat case_decide; split.
    + intros [= <- <-]. left. done.
    + intros [(_ & -> & ->)|[(? & _)|(? & _)]]; [done|lia|lia].
    + intros [= <- <-]. right; left. done.
    + intros [(? & _)|[(_ & -> & ->)|(? & _)]]; [lia|done|lia].
    + intros [= <- <-]. right; right. split; [lia|done].
    + intros [(? & _)|[(? & _)|(_ & -> & ->)]]; [lia|lia|done].
  - split; [by intros [= <- <-]|by intros [-> ->]].
Qed.

End ElevatorCourse.

(** * Elevator: travelling to the stops *)

Section ElevatorTravel.
Import Elevator.

Lemma moves_succ_r (k : nat) (e : t) : moves (S k) e = moves k (move e).2.
Proof. unfold moves. by rewrite Nat.iter_succ_r. Qed.

Lemma moves_add (j k : nat) (e : t) : moves (j + k) e = moves j (moves k e).
Proof. unfold moves. apply Nat.iter_add. Qed.

Lemma moves_nowhere (k : nat) (e : t) : destinationFloors e = [] → moves k e = e.
Proof.
  intros Hds. induction k as [|k IH]; [done|].
  rewrite moves_succ_r, (move_nowhere e Hds). done.
Qed.

Lemma on_course_moves (k : nat) (e : t) : on_course e → on_course (moves k e).
Proof.
  intros He. induction k as [|k IH]; [done|]. by apply on_course_move.
Qed.

Lemma getNextDestination_up_least (e : t) (n : Z) :
  direction e = Direction.UP → n ∈ destinationFloors e → currentFloor e < n →
  (∀ x, x ∈ destinationFloors e → currentFloor e < x → n ≤ x) →
  getNextDestination e = Some n.
Proof.
  intros Hdir Hin Hlt Hleast.
  destruct (destinationFloors e) as [|first rest] eqn:Hds;
    [by apply elem_of_nil in Hin|].
  destruct (getNextDestination_cases e first rest Hds) as (m & -> & Hm & Hcase).
  rewrite Hds in Hcase, Hm. f_equal.
  destruct Hcase as [(_ & ? & Hm_least)|[(? & _)|(_ & Hno & _)]].
  - pose proof (Hleast m Hm). pose proof (Hm_least n Hin). lia.
  - congruence.
  - by destruct (Hno Hdir n Hin).
Qed.

Lemma getNextDestination_down_greatest (e : t) (n : Z) :
  direction e = Direction.DOWN → n ∈ destinationFloors e → n < currentFloor e →
  (∀ x, x ∈ destinationFloors e → x < currentFloor e → x ≤ n) →
  getNextDestination e = Some n.
Proof.
  intros Hdir Hin Hlt Hgreatest.
  destruct (destinationFloors e) as [|first rest] eqn:Hds;
    [by apply elem_of_nil in Hin|].
  destruct (getNextDestination_cases e first rest Hds) as (m & -> & Hm & Hcase).
  rewrite Hds in Hcase, Hm. f_equal.
  destruct Hcase as [(? & _)|[(_ & ? & Hm_greatest)|(_ & _ & Hno)]].
  - congruence.
  - pose proof (Hgreatest m Hm). pose proof (Hm_greatest n Hin). lia.
  - by destruct (Hno Hdir n Hin).
Qed.

(** A move that does not reach the stop, going up. *)
Lemma move_passing_up (e : t) (n : Z) :
  direction e = Direction.UP → n ∈ destinationFloors e →
  (∀ x, x ∈ destinationFloors e → currentFloor e < x → n ≤ x) →
  currentFloor e + 1 < n →
  (move e).2
  = mk (id e) (currentFloor e + 1) (destinationFloors e)
       ElevatorState.MOVING_UP Direction.UP.
Proof.
  intros Hdir Hin Hleast Hfar.
  assert (Hn : getNextDestination e = Some n)
    by (apply getNextDestination_up_least; [done|done|lia|done]).
  unfold move. rewrite Hn. cbn [snd].
  destruct (decide (currentFloor e < n)); [|lia]. simpl.
  destruct (decide (currentFloor e + 1 = n)); [lia|].
  rewrite updateDirection_by_next.
  rewrite (getNextDestination_up_least _ n); simpl; try done; try lia.
  - rewrite decide_True by lia. done.
  - intros x Hx Hlt. apply Hleast; [done|lia].
Qed.

Lemma move_passing_down (e : t) (n : Z) :
  direction e = Direction.DOWN → n ∈ destinationFloors e →
  (∀ x, x ∈ destinationFloors e → x < currentFloor e → x ≤ n) →
  n < currentFloor e - 1 →
  (move e).2
  = mk (id e) (currentFloor e - 1) (destinationFloors e)
       ElevatorState.MOVING_DOWN Direction.DOWN.
Proof.
  intros Hdir Hin Hgreatest Hfar.
  assert (Hn : getNextDestination e = Some n)
    by (apply getNextDestination_down_greatest; [done|done|lia|done]).
  unfold move. rewrite Hn. cbn [snd].
  destruct (decide (currentFloor e < n)); [lia|].
  destruct (decide (n < currentFloor e)); [|lia]. simpl.
  destruct (decide (currentFloor e - 1 = n)); [lia|].
  rewrite updateDirection_by_next.
  rewrite (getNextDestination_down_greatest _ n); simpl; try done; try lia.
  - destruct (decide (currentFloor e - 1 < n)); [lia|].
    destruct (decide (n < currentFloor e - 1)); [done|lia].
  - intros x Hx Hlt. apply Hgreatest; [done|lia].
Qed.

Lemma sweep_up (k : nat) (e : t) (n : Z) :
  direction e = Direction.UP → n ∈ destinationFloors e →
  (∀ x, x ∈ destinationFloors e → currentFloor e < x → n ≤ x) →
  n - currentFloor e = Z.of_nat (S k) →
  (∀ j, (j ≤ k)%nat →
     currentFloor (moves j e) = currentFloor e + Z.of_nat j
     ∧ destinationFloors (moves j e) = destinationFloors e)
  ∧ currentFloor (moves (S k) e) = n
  ∧ destinationFloors (moves (S k) e) = NumberSet.delete n (destinationFloors e).
Proof.
  revert e. induction k as [|k IH]; intros e Hdir Hin Hleast Hdist.
  - split.
    + intros j Hj. assert (j = 0%nat) as -> by lia. simpl. split; [lia|done].
    + assert (Hn : getNextDestination e = Some n)
        by (apply getNextDestination_up_least; [done|done|lia|done]).
      destruct (move_fields e n Hn) as (_ & _ & Hcur & Hds).
      change (moves 1 e) with (move e).2. rewrite Hds, Hcur.
      rewrite decide_True by lia. split; [lia|done].
  - pose proof (move_passing_up e n Hdir Hin Hleast ltac:(lia)) as Hstep.
    assert (Hnext : (∀ j, (j ≤ k)%nat →
               currentFloor (moves j (move e).2)
               = currentFloor (move e).2 + Z.of_nat j
               ∧ destinationFloors (moves j (move e).2)
                 = destinationFloors (move e).2)
             ∧ currentFloor (moves (S k) (move e).2) = n
             ∧ destinationFloors (moves (S k) (move e).2)
               = NumberSet.delete n (destinationFloors (move e).2)).
    { apply IH; rewrite Hstep; simpl; try done; try lia.
      intros x Hx Hlt. apply Hleast; [done|lia]. }
    destruct Hnext as (Hbefore & Hcur & Hds).
    rewrite !(moves_succ_r (S k)).
    split; [|by rewrite Hcur, Hds, Hstep].
    intros [|j] Hj; [simpl; split; [lia|done]|].
    rewrite moves_succ_r.
    destruct (Hbefore j ltac:(lia)) as [-> ->]. rewrite Hstep. simpl.
    split; [lia|done].
Qed.

Lemma sweep_down (k : nat) (e : t) (n : Z) :
  direction e = Direction.DOWN → n ∈ destinationFloors e →
  (∀ x, x ∈ destinationFloors e → x < currentFloor e → x ≤ n) →
  currentFloor e - n = Z.of_nat (S k) →
  (∀ j, (j ≤ k)%nat →
     currentFloor (moves j e) = currentFloor e - Z.of_nat j
     ∧ destinationFloors (moves j e) = destinationFloors e)
  ∧ currentFloor (moves (S k) e) = n
  ∧ destinationFloors (moves (S k) e) = NumberSet.delete n (destinationFloors e).
Proof.
  revert e. induction k as [|k IH]; intros e Hdir Hin Hgreatest Hdist.
  - split.
    + intros j Hj. assert (j = 0%nat) as -> by lia. simpl. split; [lia|done].
    + assert (Hn : getNextDestination e = Some n)
        by (apply getNextDestination_down_greatest; [done|done|lia|done]).
      destruct (move_fields e n Hn) as (_ & _ & Hcur & Hds).
      change (moves 1 e) with (move e).2. rewrite Hds, Hcur.
      rewrite decide_True by lia. split; [lia|done].
  - pose proof (move_passing_down e n Hdir Hin Hgreatest ltac:(lia)) as Hstep.
    assert (Hnext : (∀ j, (j ≤ k)%nat →
               currentFloor (moves j (move e).2)
               = currentFloor (move e).2 - Z.of_nat j
               ∧ destinationFloors (moves j (move e).2)
                 = destinationFloors (move e).2)
             ∧ currentFloor (moves (S k) (move e).2) = n
             ∧ destinationFloors (moves (S k) (move e).2)
               = NumberSet.delete n (destinationFloors (move e).2)).
    { apply IH; rewrite Hstep; simpl; try done; try lia.
      intros x Hx Hlt. apply Hgreatest; [done|lia]. }
    destruct Hnext as (Hbefore & Hcur & Hds).
    rewrite !(moves_succ_r (S k)).
    split; [|by rewrite Hcur, Hds, Hstep].
    intros [|j] Hj; [simpl; split; [lia|done]|].
    rewrite moves_succ_r.
    destruct (Hbefore j ltac:(lia)) as [-> ->]. rewrite Hstep. simpl.
    split; [lia|done].
Qed.

End ElevatorTravel.

Section ElevatorService.
Import Elevator.

Lemma length_NumberSet_delete (n : Z) (s : list Z) :
  n ∈ s → (length (NumberSet.delete n s) < length s)%nat.
Proof.
  unfold NumberSet.delete. induction s as [|x s IH]; intros Hin.
  - by apply elem_of_nil in Hin.
  - rewrite filter_cons. case_decide as Hx; simpl.
    + apply elem_of_cons in Hin as [->|Hin]; [done|].
      specialize (IH Hin). lia.
    + pose proof (length_filter (λ y, y ≠ n) s). lia.
Qed.

(** An elevator on course for a stop elsewhere goes straight to it. *)
Lemma sweep_to_next (e : t) (n : Z) :
  on_course e → getNextDestination e = Some n → n ≠ currentFloor e →
  (∀ j, (j < Z.to_nat (Z.abs (n - currentFloor e)))%nat →
     currentFloor (moves j e)
     = currentFloor e + Z.of_nat j * Z.sgn (n - currentFloor e)
     ∧ destinationFloors (moves j e) = destinationFloors e)
  ∧ currentFloor (moves (Z.to_nat (Z.abs (n - currentFloor e))) e) = n
  ∧ destinationFloors (moves (Z.to_nat (Z.abs (n - currentFloor e))) e)
    = NumberSet.delete n (destinationFloors e).
Proof.
  intros Hcourse Hn Hne.
  pose proof (getNextDestination_elem e n Hn) as Hin.
  destruct (destinationFloors e) as [|first rest] eqn:Hds;
    [by apply elem_of_nil in Hin|].
  destruct (getNextDestination_cases e first rest Hds) as (m & Hm & _ & Hcase).
  assert (m = n) as -> by congruence. rewrite <- Hds in *.
  apply on_course_spec in Hcourse. rewrite Hn in Hcourse.
  destruct Hcourse as [(Hlt & _ & Hdir)|[(Hlt & _ & Hdir)|(? & _)]]; [| |done].
  - assert (Hleast : ∀ x, x ∈ destinationFloors e → currentFloor e < x → n ≤ x).
    { destruct Hcase as [(_ & _ & ?)|[(? & _)|(_ & Hno & _)]];
        [done|congruence|]. by destruct (Hno Hdir n Hin). }
    destruct (Z.to_nat (Z.abs (n - currentFloor e))) as [|k] eqn:Hk; [lia|].
    destruct (sweep_up k e n Hdir Hin Hleast ltac:(lia)) as (Hbefore & Hcur & Hds').
    split; [|done]. intros j Hj. destruct (Hbefore j ltac:(lia)) as [-> ->].
    split; [lia|done].
  - assert (Hgreatest : ∀ x, x ∈ destinationFloors e → x < currentFloor e → x ≤ n).
    { destruct Hcase as [(? & _)|[(_ & _ & ?)|(_ & _ & Hno)]];
        [congruence|done|]. by destruct (Hno Hdir n Hin). }
    destruct (Z.to_nat (Z.abs (n - currentFloor e))) as [|k] eqn:Hk; [lia|].
    destruct (sweep_down k e n Hdir Hin Hgreatest ltac:(lia))
      as (Hbefore & Hcur & Hds').
    split; [|done]. intros j Hj. destruct (Hbefore j ltac:(lia)) as [-> ->].
    split; [lia|done].
Qed.

(** From a state on course, some stop is reached and removed. *)
Lemma progress_on_course (e : t) :
  on_course e → destinationFloors e ≠ [] →
  ∃ k n, n ∈ destinationFloors e
    ∧ currentFloor (moves k e) = n
    ∧ destinationFloors (moves k e) = NumberSet.delete n (destinationFloors e).
Proof.
  intros Hcourse Hds.
  destruct (getNextDestination e) as [n|] eqn:Hn;
    [|by apply getNextDestination_None in Hn].
  pose proof (getNextDestination_elem e n Hn) as Hin.
  destruct (decide (n = currentFloor e)) as [Heq|Hne].
  - exists 1%nat, n. split; [done|].
    destruct (move_fields e n Hn) as (_ & _ & Hcur & Hds').
    change (moves 1 e) with (move e).2. rewrite Hds', Hcur.
    rewrite decide_True by lia. split; [lia|done].
  - exists (Z.to_nat (Z.abs (n - currentFloor e))), n. split; [done|].
    by destruct (sweep_to_next e n Hcourse Hn Hne) as (_ & ? & ?).
Qed.

Lemma progress (e : t) :
  destinationFloors e ≠ [] →
  ∃ k n, n ∈ destinationFloors e
    ∧ currentFloor (moves k e) = n
    ∧ destinationFloors (moves k e) = NumberSet.delete n (destinationFloors e).
Proof.
  intros Hds.
  destruct (getNextDestination e) as [n|] eqn:Hn;
    [|by apply getNextDestination_None in Hn].
  pose proof (getNextDestination_elem e n Hn) as Hin.
  destruct (move_fields e n Hn) as (_ & _ & Hcur & Hds').
  destruct (decide (currentFloor (move e).2 = n)) as [Hat|Hnot].
  - exists 1%nat, n. change (moves 1 e) with (move e).2. done.
  - assert (Hcourse : on_course (move e).2).
    { unfold move. rewrite Hn. apply on_course_updateDirection. }
    destruct (progress_on_course (move e).2 Hcourse) as (k & m & Hm & Hk & Hkds).
    { by rewrite Hds'. }
    exists (S k), m. rewrite moves_succ_r. by rewrite Hds' in Hm, Hkds.
Qed.

Lemma service (m : nat) (e : t) :
  (length (destinationFloors e) ≤ m)%nat →
  ∃ k, destinationFloors (moves k e) = [].
Proof.
  revert e. induction m as [|m IH]; intros e Hlen.
  - exists 0%nat. simpl. by apply length_zero_iff_nil, Nat.le_0_r.
  - destruct (decide (destinationFloors e = [])) as [Hds|Hds];
      [by exists 0%nat|].
    destruct (progress e Hds) as (k & n & Hn & _ & Hk).
    pose proof (length_NumberSet_delete n _ Hn) as Hshorter.
    destruct (IH (moves k e)) as [k' Hk']; [rewrite Hk; lia|].
    exists (k' + k)%nat. by rewrite moves_add.
Qed.

(** A destination disappears only in a move that ends on its floor. *)
Lemma removed_means_visited (k : nat) (e : t) (f : Z) :
  f ∈ destinationFloors e → f ∉ destinationFloors (moves k e) →
  ∃ j, (1 ≤ j ≤ k)%nat ∧ currentFloor (moves j e) = f.
Proof.
  intros Hin. induction k as [|k IH]; intros Hout; [done|].
  destruct (decide (f ∈ destinationFloors (moves k e))) as [Hstill|Hgone].
  - exists (S k). split; [lia|].
    change (moves (S k) e) with (move (moves k e)).2 in *.
    destruct (getNextDestination (moves k e)) as [n|] eqn:Hn.
    + destruct (move_fields _ n Hn) as (_ & _ & _ & Hds).
      rewrite Hds in Hout. case_decide as Hat; [|done].
      rewrite elem_of_NumberSet_delete in Hout.
      destruct (decide (f = n)) as [->|Hne]; [done|]. by destruct Hout.
    + apply getNextDestination_None in Hn. rewrite Hn in Hstill.
      by apply elem_of_nil in Hstill.
  - destruct (IH Hgone) as (j & Hj & Hcur). exists j. split; [lia|done].
Qed.

End ElevatorService.

(** * Building: buttons and queue *)

Lemma elem_of_delete_or {A} (l : list A) (k : nat) (x y : A) :
  x ∈ l → l !! k = Some y → x ∈ delete k l ∨ x = y.
Proof.
  intros [j Hj]%list_elem_of_lookup_1 Hk.
  destruct (decide (j = k)) as [->|Hne]; [right; congruence|left].
  destruct (decide (j < k)%nat).
  - apply (list_elem_of_lookup_2 _ j). by rewrite list_lookup_delete_lt.
  - apply (list_elem_of_lookup_2 _ (pred j)).
    rewrite list_lookup_delete_ge by lia.
    by replace (S (pred j)) with j by lia.
Qed.

(** What [removePendingRequest] leaves: the queue without the first call
    for the pair, and the floors as they were unless no call for the pair
    remains, in which case the pair's button is released (or, with no such
    floor, the release throws). *)
Lemma removePendingRequest_cases (r : FloorRequest.t) (b : t) :
  let b' := after (removePendingRequest r b) in
  pendingRequests b' = without_first_call r (pendingRequests b)
  ∧ elevators b' = elevators b
  ∧ totalFloors b' = totalFloors b
  ∧ totalElevators b' = totalElevators b
  ∧ ((Exists (same_call r) (pendingRequests b') ∧ floors b' = floors b
      ∧ removePendingRequest r b = Normal b')
     ∨ (¬ Exists (same_call r) (pendingRequests b')
        ∧ at_index (floors b) (FloorRequest.floor r) = None
        ∧ floors b' = floors b
        ∧ removePendingRequest r b = TypeError b')
     ∨ (¬ Exists (same_call r) (pendingRequests b')
        ∧ is_Some (at_index (floors b) (FloorRequest.floor r))
        ∧ floors b'
          = alter (if decide (FloorRequest.direction r = Direction.UP)
                   then Floor.releaseUpButton else Floor.releaseDownButton)
                  (Z.to_nat (FloorRequest.floor r)) (floors b)
        ∧ removePendingRequest r b = Normal b')).
Proof.
  unfold removePendingRequest.
  set (b1 := match list_find _ _ with Some _ => _ | None => _ end).
  assert (Hb1 : pendingRequests b1 = without_first_call r (pendingRequests b)
                ∧ elevators b1 = elevators b ∧ floors b1 = floors b
                ∧ totalFloors b1 = totalFloors b
                ∧ totalElevators b1 = totalElevators b).
  { subst b1. unfold without_first_call.
    by destruct (list_find _ _) as [[index ?]|]. }
  destruct Hb1 as (Hq & Hel & Hfl & Htf & Hte). clearbody b1.
  case_bool_decide as Hother; simpl.
  { do 4 (split; [done|]). left. done. }
  rewrite Hfl. destruct (at_index (floors b) _) as [fl|] eqn:Hat; simpl.
  - case_decide; simpl; (do 4 (split; [done|])); right; right;
      rewrite Hfl; (split; [done|]); (split; [by eexists|]); done.
  - do 4 (split; [done|]). right; left. done.
Qed.

Section FloorsAndQueue.
Variable J : t → Prop.
Hypothesis J_with_elevators : ∀ b es, J b → J (with_elevators b es).
Hypothesis J_removePendingRequest :
  ∀ r b, J b → J (after (removePendingRequest r b)).
Hypothesis J_release_up : ∀ i b, J b → J (on_floor i Floor.releaseUpButton b).
Hypothesis J_release_down : ∀ i b, J b → J (on_floor i Floor.releaseDownButton b).
Hypothesis J_push : ∀ f d b,
  0 ≤ f < totalFloors b → J b →
  J (with_pendingRequests b (pendingRequests b ++ [FloorRequest.mk f d])).
Hypothesis J_press : ∀ f d b,
  0 ≤ f < totalFloors b →
  ¬ (f = totalFloors b - 1 ∧ d = Direction.UP) →
  J b →
  J ((if decide (d = Direction.UP)
      then on_floor f Floor.pressUpButton
      else on_floor f Floor.pressDownButton)
       (with_pendingRequests b (pendingRequests b ++ [FloorRequest.mk f d]))).
Hypothesis J_reset : ∀ b, J b → J (after (reset b)).

Lemma J_assignRequestToElevator (r : FloorRequest.t) (b : t) :
  J b → J (after (assignRequestToElevator r b)).
Proof.
  intros Hb. unfold assignRequestToElevator.
  destruct (availableElevators r b); [done|].
  by apply J_removePendingRequest, J_with_elevators.
Qed.

Lemma J_requestElevator (f : Z) (d : Direction.t) (b : t) :
  J b → J (after (requestElevator f d b)).
Proof.
  intros Hb. unfold requestElevator.
  destruct (decide _) as [|Hf]; [done|].
  destruct (decide _); [done|].
  destruct (decide _) as [|Htop]; [done|].
  destruct (at_index _ _); simpl.
  - apply J_assignRequestToElevator.
    case_decide; (apply (J_press f d b) in Hb; [|lia|done]);
      [by rewrite decide_True in Hb|by rewrite decide_False in Hb].
  - apply J_push; [lia|done].
Qed.

Lemma J_requestElevatorFloor (i f : Z) (b : t) :
  J b → J (after (requestElevatorFloor i f b)).
Proof.
  intros Hb. unfold requestElevatorFloor.
  destruct (decide _); [done|]. destruct (at_index _ _); [|done].
  by apply J_with_elevators.
Qed.

Lemma J_forEachPending (n k : nat) (b : t) :
  J b → J (after (forEachPending n k b).2).
Proof.
  revert k b. induction n as [|n IH]; intros k b Hb; simpl; [done|].
  destruct (pendingRequests b !! k) as [r|]; [|by apply IH].
  pose proof (J_assignRequestToElevator r b Hb) as Hb'.
  destruct (assignRequestToElevator r b); simpl in *; [by apply IH|done].
Qed.

Lemma J_arrival (e : Elevator.t) (b : t) : J b → J (after (arrival e b)).
Proof.
  intros Hb. unfold arrival. destruct (at_index _ _); [|done].
  set (c := if _ && _ then _ else _).
  assert (Hc : J (after c)).
  { subst c. destruct (_ && _); [|done].
    by apply J_removePendingRequest, J_release_up. }
  clearbody c. destruct c as [b1|b1]; simpl in *; [|done].
  destruct (at_index _ _); [|done]. destruct (_ && _); [|done].
  by apply J_removePendingRequest, J_release_down.
Qed.

Lemma J_arrivals (es : list Elevator.t) (c : completion) :
  J (after c) →
  J (after (foldl (λ c elevator, and_then c (arrival elevator)) c es)).
Proof.
  revert c. induction es as [|e es IH]; intros c Hc; simpl; [done|].
  apply IH. destruct c; simpl in *; [by apply J_arrival|done].
Qed.

Lemma J_update (b : t) : J b → J (after (update b)).
Proof.
  intros Hb. unfold update.
  set (c := (forEachPending _ _ _).2).
  assert (Hc : J (after c)) by by apply J_forEachPending, J_with_elevators.
  clearbody c. destruct c as [b2|b2]; simpl in *; [|done].
  by apply J_arrivals.
Qed.

Lemma J_exec (c : command) (b : t) : J b → J (after (exec c b)).
Proof.
  destruct c; simpl.
  - apply J_requestElevator.
  - apply J_requestElevatorFloor.
  - apply J_update.
  - apply J_reset.
Qed.

Lemma J_run (cs : list command) (b : t) : J b → J (run cs b).
Proof.
  revert b. induction cs as [|c cs IH]; intros b Hb; simpl; [done|].
  by apply IH, J_exec.
Qed.

End FloorsAndQueue.

Lemma alter_lookup_inv {A} (m : A → A) (k j : nat) (l : list A) (y : A) :
  alter m k l !! j = Some y →
  ∃ x, l !! j = Some x ∧ ((j = k ∧ y = m x) ∨ (j ≠ k ∧ y = x)).
Proof.
  rewrite list_lookup_alter. case_decide as Hk.
  - subst k. intros (x & Hx & ->)%fmap_Some. exists x. auto.
  - intros Hj. exists y. auto.
Qed.

Lemma array_from_lookup {A} (n : Z) (make : Z → A) (i : nat) (x : A) :
  array_from n make !! i = Some x → x = make (Z.of_nat i).
Proof.
  unfold array_from. rewrite list_lookup_fmap.
  intros (j & Hj & ->)%fmap_Some. apply lookup_seq in Hj as [-> _]. done.
Qed.

Section ButtonsBacked.

Lemma backed_with_elevators (b : t) (es : list Elevator.t) :
  buttons_backed b → buttons_backed (with_elevators b es).
Proof. done. Qed.

(** A method that presses nothing keeps the buttons backed. *)
Lemma backed_on_floor_release (i : Z) (m : Floor.t → Floor.t) (b : t) :
  (∀ fl, Floor.upButtonPressed (m fl) = true → Floor.upButtonPressed fl = true) →
  (∀ fl, Floor.downButtonPressed (m fl) = true → Floor.downButtonPressed fl = true) →
  buttons_backed b → buttons_backed (on_floor i m b).
Proof.
  intros Hup Hdown Hb j fl' Hj. simpl in Hj.
  apply alter_lookup_inv in Hj as (fl & Hfl & [[_ ->]|[_ ->]]);
    destruct (Hb j fl Hfl) as [Hu Hd]; simpl; split; auto.
Qed.

Lemma backed_push (f : Z) (d : Direction.t) (b : t) :
  0 ≤ f < totalFloors b → buttons_backed b →
  buttons_backed (with_pendingRequests b (pendingRequests b ++ [FloorRequest.mk f d])).
Proof.
  intros _ Hb j fl Hj. destruct (Hb j fl Hj) as [Hu Hd]. simpl.
  split; intros Hlit; [destruct (Hu Hlit) as (r & ? & ?)|
                       destruct (Hd Hlit) as (r & ? & ?)];
    exists r; (split; [apply elem_of_app; by left|done]).
Qed.

Lemma backed_press (f : Z) (d : Direction.t) (b : t) :
  0 ≤ f < totalFloors b →
  ¬ (f = totalFloors b - 1 ∧ d = Direction.UP) →
  buttons_backed b →
  buttons_backed
    ((if decide (d = Direction.UP)
      then on_floor f Floor.pressUpButton
      else on_floor f Floor.pressDownButton)
       (with_pendingRequests b (pendingRequests b ++ [FloorRequest.mk f d]))).
Proof.
  intros Hf _ Hb.
  pose proof (backed_push f d b Hf Hb) as Hb1.
  assert (Hnew : FloorRequest.mk f d ∈ pendingRequests b ++ [FloorRequest.mk f d]).
  { apply elem_of_app. right. left. }
  case_decide as Hd; intros j fl' Hj; simpl in Hj;
    apply alter_lookup_inv in Hj as (fl & Hfl & [[-> ->]|[_ ->]]);
    try (by apply (Hb1 j fl Hfl));
    destruct (Hb1 _ fl Hfl) as [Hu Hdn]; simpl in *.
  - split.
    + intros _. exists (FloorRequest.mk f d). split; [done|]. simpl.
      split; [lia|done].
    + unfold Floor.pressUpButton. case_decide; simpl; auto.
  - split.
    + unfold Floor.pressDownButton. case_decide; simpl; auto.
    + intros _. exists (FloorRequest.mk f d). split; [done|]. simpl.
      split; [lia|done].
Qed.

Lemma backed_removePendingRequest (r : FloorRequest.t) (b : t) :
  buttons_backed b → buttons_backed (after (removePendingRequest r b)).
Proof.
  intros Hb.
  destruct (removePendingRequest_cases r b)
    as (Hq & _ & _ & _ & Hcase).
  set (b' := after (removePendingRequest r b)) in *. clearbody b'.
  (* a backing call survives, or is the one removed *)
  assert (Hkeep : ∀ r', r' ∈ pendingRequests b →
            r' ∈ pendingRequests b' ∨ same_call r r').
  { intros r' Hr'. rewrite Hq. unfold without_first_call.
    destruct (list_find _ _) as [[k x]|] eqn:Hfind; [|by left].
    apply list_find_Some in Hfind as (Hk & Hx & _).
    destruct (elem_of_delete_or _ k r' x Hr' Hk) as [?| ->]; auto. }
  assert (Hsame : ∀ (j : nat) fl' (P : FloorRequest.t → Prop),
            floors b' !! j = Some fl' →
            (∀ x y, same_call x y → P x → P y) →
            (∀ fl, floors b !! j = Some fl →
                   ∃ r', r' ∈ pendingRequests b
                         ∧ FloorRequest.floor r' = Z.of_nat j ∧ P r') →
            (∀ fl, floors b !! j = Some fl →
                   FloorRequest.floor r = Z.of_nat j → P r →
                   ¬ Exists (same_call r) (pendingRequests b') →
                   floors b' !! j ≠ Some fl') →
            ∃ r', r' ∈ pendingRequests b'
                  ∧ FloorRequest.floor r' = Z.of_nat j ∧ P r').
  { intros j fl' P Hj HP Hback Hdark.
    assert (∃ fl, floors b !! j = Some fl) as [fl Hfl].
    { destruct Hcase as [(_ & Hfl & _)|[(_ & _ & Hfl & _)|(_ & _ & Hfl & _)]];
        rewrite Hfl in Hj; [by eexists|by eexists|].
      apply alter_lookup_inv in Hj as (x & ? & _). by eexists. }
    destruct (Hback fl Hfl) as (r' & Hr' & Hfloor & HPr').
    destruct (Hkeep r' Hr') as [?|[Hsf Hsd]]; [by exists r'|].
    destruct (decide (Exists (same_call r) (pendingRequests b'))) as [Hex|Hnex].
    - apply Exists_exists in Hex as (r'' & Hin'' & [Hf'' Hd'']).
      exists r''. split; [done|]. split; [congruence|].
      apply (HP r'); [split; congruence|done].
    - exfalso. apply (Hdark fl Hfl); try done.
      + congruence.
      + apply (HP r'); [split; congruence|done]. }
  intros j fl' Hj. split; intros Hlit.
  - destruct (Hsame j fl' (λ x, FloorRequest.direction x = Direction.UP) Hj)
      as (r' & ? & ? & ?); [| | |by exists r'].
    + intros x y [_ Hxy] Hx. congruence.
    + intros fl Hfl.
      enough (Floor.upButtonPressed fl = true) as Hlit0
        by (destruct (Hb j fl Hfl) as [Hu _]; destruct (Hu Hlit0) as (x & ?);
            by exists x).
      destruct Hcase as [(_ & Hfl' & _)|[(_ & _ & Hfl' & _)|(_ & _ & Hfl' & _)]];
        rewrite Hfl' in Hj; [congruence|congruence|].
      apply alter_lookup_inv in Hj as (x & Hx & [[_ ->]|[_ ->]]);
        [|congruence].
      assert (x = fl) as -> by congruence.
      by case_decide; destruct fl.
    + intros fl Hfl Hfloor Hdir Hnex.
      destruct Hcase as [(Hex & _)|[(_ & Hnone & _)|(_ & _ & Hfl' & _)]].
      * done.
      * unfold at_index in Hnone. rewrite decide_True in Hnone by lia.
        rewrite Hfloor, Nat2Z.id in Hnone. congruence.
      * rewrite Hfl', Hfloor, Nat2Z.id, list_lookup_alter_eq, Hfl.
        rewrite decide_True by done. simpl. intros [= <-]. done.
  - destruct (Hsame j fl' (λ x, FloorRequest.direction x ≠ Direction.UP) Hj)
      as (r' & ? & ? & ?); [| | |by exists r'].
    + intros x y [_ Hxy] Hx. congruence.
    + intros fl Hfl.
      enough (Floor.downButtonPressed fl = true) as Hlit0
        by (destruct (Hb j fl Hfl) as [_ Hd]; destruct (Hd Hlit0) as (x & ?);
            by exists x).
      destruct Hcase as [(_ & Hfl' & _)|[(_ & _ & Hfl' & _)|(_ & _ & Hfl' & _)]];
        rewrite Hfl' in Hj; [congruence|congruence|].
      apply alter_lookup_inv in Hj as (x & Hx & [[_ ->]|[_ ->]]);
        [|congruence].
      assert (x = fl) as -> by congruence.
      by case_decide; destruct fl.
    + intros fl Hfl Hfloor Hdir Hnex.
      destruct Hcase as [(Hex & _)|[(_ & Hnone & _)|(_ & _ & Hfl' & _)]].
      * done.
      * unfold at_index in Hnone. rewrite decide_True in Hnone by lia.
        rewrite Hfloor, Nat2Z.id in Hnone. congruence.
      * rewrite Hfl', Hfloor, Nat2Z.id, list_lookup_alter_eq, Hfl.
        rewrite decide_False by done. simpl. intros [= <-]. done.
Qed.

Lemma backed_reset (b : t) : buttons_backed b → buttons_backed (after (reset b)).
Proof.
  intros _ j fl Hj. simpl in Hj. rewrite list_lookup_fmap in Hj.
  apply fmap_Some in Hj as (x & _ & ->). done.
Qed.

Lemma backed_new (tf te : Z) : buttons_backed (new tf te).
Proof.
  intros j fl Hj. simpl in Hj. apply array_from_lookup in Hj as ->. done.
Qed.

End ButtonsBacked.

Section EndButtons.

Lemma dark_on_floor (i : Z) (m : Floor.t → Floor.t) (b : t) :
  (∀ fl, Floor.number (m fl) = Floor.number fl) →
  (∀ fl, Floor.number fl = Z.of_nat (Z.to_nat i) →
         Z.of_nat (Z.to_nat i) = totalFloors b - 1 →
         Floor.upButtonPressed fl = false → Floor.upButtonPressed (m fl) = false) →
  (∀ fl, Floor.number fl = 0 →
         Floor.downButtonPressed fl = false → Floor.downButtonPressed (m fl) = false) →
  end_buttons_dark b → end_buttons_dark (on_floor i m b).
Proof.
  intros Hnum Hup Hdown Hb j fl' Hj. simpl in Hj.
  apply alter_lookup_inv in Hj as (fl & Hfl & [[-> ->]|[_ ->]]);
    destruct (Hb _ fl Hfl) as (Hn & Hu & Hd); simpl; [|done].
  rewrite Hnum. split; [done|]. split.
  - intros Htop. apply Hup; auto.
  - intros Hzero. apply Hdown; [|by auto]. rewrite Hn, Hzero. done.
Qed.

Lemma dark_removePendingRequest (r : FloorRequest.t) (b : t) :
  end_buttons_dark b → end_buttons_dark (after (removePendingRequest r b)).
Proof.
  intros Hb.
  destruct (removePendingRequest_cases r b) as (_ & _ & Htf & _ & Hcase).
  intros j fl' Hj. rewrite Htf.
  destruct Hcase as [(_ & Hfl & _)|[(_ & _ & Hfl & _)|(_ & _ & Hfl & _)]];
    rewrite Hfl in Hj; [by apply Hb|by apply Hb|].
  apply alter_lookup_inv in Hj as (fl & Hfl0 & [[_ ->]|[_ ->]]);
    destruct (Hb _ fl Hfl0) as (Hn & Hu & Hd); [|done].
  case_decide; simpl; auto.
Qed.

Lemma dark_press (f : Z) (d : Direction.t) (b : t) :
  0 ≤ f < totalFloors b →
  ¬ (f = totalFloors b - 1 ∧ d = Direction.UP) →
  end_buttons_dark b →
  end_buttons_dark
    ((if decide (d = Direction.UP)
      then on_floor f Floor.pressUpButton
      else on_floor f Floor.pressDownButton)
       (with_pendingRequests b (pendingRequests b ++ [FloorRequest.mk f d]))).
Proof.
  intros Hf Htop Hb. case_decide as Hd.
  - apply dark_on_floor; [| | |done].
    + intros fl. unfold Floor.pressUpButton. by case_decide.
    + simpl. intros fl _ Hi. exfalso. apply Htop. split; [lia|done].
    + intros fl _. unfold Floor.pressUpButton. by case_decide.
  - apply dark_on_floor; [| | |done].
    + intros fl. unfold Floor.pressDownButton. by case_decide.
    + intros fl _ _. unfold Floor.pressDownButton. by case_decide.
    + intros fl Hzero. unfold Floor.pressDownButton.
      rewrite decide_False by (intros Hne; by apply Hne). done.
Qed.

Lemma dark_reset (b : t) : end_buttons_dark b → end_buttons_dark (after (reset b)).
Proof.
  intros Hb j fl' Hj. simpl in Hj. rewrite list_lookup_fmap in Hj.
  apply fmap_Some in Hj as (fl & Hfl & ->).
  destruct (Hb j fl Hfl) as (Hn & _). done.
Qed.

Lemma dark_new (tf te : Z) : end_buttons_dark (new tf te).
Proof.
  intros j fl Hj. simpl in Hj. apply array_from_lookup in Hj as ->. done.
Qed.

End EndButtons.

(** * Building: no operation throws where the floors are indexable *)

Lemma within_reset_elevator (tf : Z) (e : Elevator.t) :
  within tf e → within tf (reset_elevator e).
Proof. intros [Hcur _]. split; simpl; [lia|constructor]. Qed.

Lemma assignRequestToElevator_returns (r : FloorRequest.t) (b : t) :
  is_Some (at_index (floors b) (FloorRequest.floor r)) →
  assignRequestToElevator r b = Normal (after (assignRequestToElevator r b)).
Proof.
  intros [fl Hfl]. unfold assignRequestToElevator.
  destruct (availableElevators r b); [done|].
  by apply (removePendingRequest_returns r _ fl).
Qed.

Section NoThrow.
Variables (tf te : Z) (nums ids : list Z).
Hypothesis nums_length : length nums = Z.to_nat tf.

Local Notation "'sound'" := (kept tf te nums ids (within tf)).

Lemma sound_floor (b : t) (f : Z) :
  sound b → 0 ≤ f < tf → is_Some (at_index (floors b) f).
Proof.
  intros (_ & _ & Hnum & _) Hf. unfold at_index.
  rewrite decide_True by lia. apply lookup_lt_is_Some.
  rewrite <- (length_fmap Floor.number), Hnum, nums_length. lia.
Qed.

Lemma sound_indexable (b : t) : sound b → indexable b.
Proof.
  intros (Htf & _ & Hnum & _ & Hw & Hq). rewrite <- Htf in *.
  split; [|done].
  by rewrite <- (length_fmap Floor.number), Hnum, nums_length.
Qed.

Lemma requestElevator_returns (f : Z) (d : Direction.t) (b : t) :
  sound b → requestElevator f d b = Normal (after (requestElevator f d b)).
Proof.
  intros Hb. unfold requestElevator.
  destruct (decide _) as [|Hf]; [done|].
  do 2 (destruct (decide _); [done|]).
  assert (Htf : totalFloors b = tf) by apply Hb.
  destruct (sound_floor b f Hb ltac:(lia)) as [fl Hfl].
  simpl. rewrite Hfl.
  apply assignRequestToElevator_returns. simpl.
  apply at_index_Some in Hfl as [Hf0 Hfl]. apply lookup_lt_Some in Hfl.
  unfold at_index. rewrite decide_True by done. apply lookup_lt_is_Some.
  case_decide; simpl; by rewrite length_alter.
Qed.

Lemma forEachPending_returns (n k : nat) (b : t) :
  sound b →
  (forEachPending n k b).2 = Normal (after (forEachPending n k b).2).
Proof.
  revert k b. induction n as [|n IH]; intros k b Hb; simpl; [done|].
  destruct (pendingRequests b !! k) as [r|] eqn:Hk; [|by apply IH].
  assert (Hr : 0 ≤ FloorRequest.floor r < tf).
  { destruct Hb as (_ & _ & _ & _ & _ & Hp).
    by apply (Forall_lookup_1 _ _ _ _ Hp Hk). }
  rewrite (assignRequestToElevator_returns r b) by by apply sound_floor.
  simpl. apply IH.
  by apply (kept_assignRequestToElevator tf te nums ids (within tf)
              (addDestination_within tf)).
Qed.

Lemma arrival_returns (e : Elevator.t) (b : t) :
  sound b → within tf e → arrival e b = Normal (after (arrival e b)).
Proof.
  intros Hb [Hcur _]. unfold arrival.
  destruct (sound_floor b _ Hb Hcur) as [fl Hfl]. rewrite Hfl.
  set (c := if _ && _ then _ else _).
  assert (Hc : c = Normal (after c) ∧ sound (after c)).
  { subst c. destruct (_ && _); [|done]. split.
    - apply (removePendingRequest_returns _ _ (Floor.releaseUpButton fl)).
      by apply on_floor_at.
    - by apply kept_removePendingRequest, kept_on_floor. }
  clearbody c. destruct Hc as [Hc Hb1].
  destruct c as [b1|b1]; [|done]. simpl in *.
  destruct (sound_floor _ _ Hb1 Hcur) as [fl1 Hfl1]. rewrite Hfl1.
  destruct (_ && _); [|done].
  apply (removePendingRequest_returns _ _ (Floor.releaseDownButton fl1)).
  by apply on_floor_at.
Qed.

Lemma arrivals_return (es : list Elevator.t) (b : t) :
  sound b → Forall (within tf) es →
  foldl (λ c elevator, and_then c (arrival elevator)) (Normal b) es
  = Normal (after (foldl (λ c elevator, and_then c (arrival elevator))
                         (Normal b) es)).
Proof.
  revert b. induction es as [|e es IH]; intros b Hb Hes; simpl; [done|].
  apply Forall_cons in Hes as [He Hes].
  rewrite (arrival_returns e b Hb He). apply IH; [|done].
  by apply kept_arrival.
Qed.

Lemma update_returns (b : t) : sound b → update b = Normal (after (update b)).
Proof.
  intros Hb. unfold update.
  set (b1 := with_elevators b _).
  assert (Hb1 : sound b1).
  { destruct Hb as (? & ? & ? & Hids & HQ & ?). repeat split; try done; simpl.
    - rewrite <- Hids, <- list_fmap_compose. apply list_fmap_ext.
      intros _ e _. apply move_id.
    - apply Forall_fmap. eapply Forall_impl; [done|]. apply move_within. }
  clearbody b1.
  rewrite (forEachPending_returns _ _ b1 Hb1). simpl.
  pose proof (kept_forEachPending tf te nums ids (within tf)
                (addDestination_within tf) (length (pendingRequests b1)) 0 b1 Hb1)
    as Hb2.
  unfold checkElevatorArrivals. apply arrivals_return; [done|]. apply Hb2.
Qed.

Lemma exec_returns (c : command) (b : t) :
  sound b → exec c b = Normal (after (exec c b)).
Proof.
  intros Hb. destruct c; simpl.
  - by apply requestElevator_returns.
  - unfold requestElevatorFloor. destruct (decide _); [done|].
    by destruct (at_index _ _).
  - by apply update_returns.
  - done.
Qed.

End NoThrow.

Lemma sound_run (tf te : Z) (history : list command) :
  1 ≤ tf →
  kept tf te (Floor.number <$> floors (new tf te))
       (Elevator.id <$> elevators (new tf te)) (within tf)
       (run history (new tf te)).
Proof.
  intros Htf. apply kept_run.
  - apply move_within.
  - apply addDestination_within.
  - apply within_reset_elevator.
  - apply kept_new. intros i. split; simpl; [lia|constructor].
Qed.

Lemma new_floor_numbers_length (tf te : Z) :
  length (Floor.number <$> floors (new tf te)) = Z.to_nat tf.
Proof. simpl. unfold array_from. by rewrite !length_fmap, length_seq. Qed.

(** * Building: where the elevators stand *)

Lemma assignRequestToElevator_positions (r : FloorRequest.t) (b : t) :
  Elevator.currentFloor <$> elevators (after (assignRequestToElevator r b))
  = Elevator.currentFloor <$> elevators b.
Proof.
  unfold assignRequestToElevator.
  destruct (availableElevators r b) as [|first rest] eqn:Hav; [done|].
  destruct (assigned_elevator_lookup r b first rest Hav) as [Hi _].
  destruct (removePendingRequest_cases r
    (with_elevators b
       (<[(foldl (closer r) first rest).1 :=
            Elevator.addDestination (FloorRequest.floor r)
              (foldl (closer r) first rest).2]> (elevators b))))
    as (_ & -> & _).
  simpl. rewrite list_fmap_insert. apply list_insert_id.
  rewrite list_lookup_fmap, Hi. simpl.
  by destruct (addDestination_fields (FloorRequest.floor r)
                 (foldl (closer r) first rest).2) as (_ & -> & _).
Qed.

Lemma forEachPending_positions (n k : nat) (b : t) :
  Elevator.currentFloor <$> elevators (after (forEachPending n k b).2)
  = Elevator.currentFloor <$> elevators b.
Proof.
  revert k b. induction n as [|n IH]; intros k b; simpl; [done|].
  destruct (pendingRequests b !! k) as [r|]; [|apply IH].
  pose proof (assignRequestToElevator_positions r b) as Hr.
  destruct (assignRequestToElevator r b); simpl in *; [|done].
  by rewrite IH.
Qed.

Lemma arrival_elevators (e : Elevator.t) (b : t) :
  elevators (after (arrival e b)) = elevators b.
Proof.
  unfold arrival. destruct (at_index _ _); [|done].
  set (c := if _ && _ then _ else _).
  assert (Hc : elevators (after c) = elevators b).
  { subst c. destruct (_ && _); [|done].
    by destruct (removePendingRequest_cases
                   (FloorRequest.mk (Elevator.currentFloor e) Direction.UP)
                   (on_floor (Elevator.currentFloor e) Floor.releaseUpButton b))
      as (_ & -> & _). }
  clearbody c. destruct c as [b1|b1]; simpl in *; [|done].
  destruct (at_index _ _); [|done]. destruct (_ && _); [|done].
  by destruct (removePendingRequest_cases
                 (FloorRequest.mk (Elevator.currentFloor e) Direction.DOWN)
                 (on_floor (Elevator.currentFloor e) Floor.releaseDownButton b1))
    as (_ & -> & _).
Qed.

Lemma arrivals_elevators (es : list Elevator.t) (c : completion) :
  elevators (after (foldl (λ c elevator, and_then c (arrival elevator)) c es))
  = elevators (after c).
Proof.
  revert c. induction es as [|e es IH]; intros c; simpl; [done|].
  rewrite IH. destruct c; simpl; [apply arrival_elevators|done].
Qed.

Lemma update_positions (b : t) :
  Elevator.currentFloor <$> elevators (after (update b))
  = (λ e, Elevator.currentFloor (Elevator.move e).2) <$> elevators b.
Proof.
  unfold update.
  set (b1 := with_elevators b _).
  pose proof (forEachPending_positions (length (pendingRequests b1)) 0 b1) as Hp.
  destruct (forEachPending _ _ b1).2 as [b2|b2]; simpl in *.
  - unfold checkElevatorArrivals. rewrite arrivals_elevators. simpl.
    rewrite Hp. by rewrite <- list_fmap_compose.
  - rewrite Hp. by rewrite <- list_fmap_compose.
Qed.

(** * Building: ticks that change nothing, ticks that skip nothing *)

Lemma arrival_idle (e : Elevator.t) (b : t) :
  Elevator.direction e = Direction.IDLE →
  is_Some (at_index (floors b) (Elevator.currentFloor e)) →
  arrival e b = Normal b.
Proof.
  intros Hdir [fl Hfl]. unfold arrival. rewrite Hfl, Hdir.
  rewrite !bool_decide_eq_false_2 by done. rewrite !andb_false_r.
  simpl. rewrite Hfl. by rewrite andb_false_r.
Qed.

Lemma forEachPending_nobody (n k : nat) (b : t) :
  Forall (λ r, Forall (λ e, Elevator.canHandleRequest e r = false) (elevators b))
         (pendingRequests b) →
  (n + k = length (pendingRequests b))%nat →
  forEachPending n k b = (drop k (pendingRequests b), Normal b).
Proof.
  intros Hnone. revert k. induction n as [|n IH]; intros k Hk; simpl.
  - by rewrite drop_ge by lia.
  - destruct (lookup_lt_is_Some_2 (pendingRequests b) k ltac:(lia)) as [r Hr].
    rewrite Hr.
    rewrite (assignRequestToElevator_nobody r b).
    + rewrite (IH (S k)) by lia. simpl. by rewrite (drop_S _ r k Hr).
    + apply availableElevators_nil. by apply (Forall_lookup_1 _ _ _ _ Hnone Hr).
Qed.

Lemma with_elevators_same (b : t) : with_elevators b (elevators b) = b.
Proof. by destruct b. Qed.

Lemma without_first_call_just_pushed (r : FloorRequest.t)
    (queue : list FloorRequest.t) :
  Forall (λ x, ¬ same_call r x) queue →
  without_first_call r (queue ++ [r]) = queue.
Proof.
  intros Hnone. unfold without_first_call.
  rewrite list_find_app_r by by apply list_find_None.
  assert (list_find (same_call r) [r] = Some (0%nat, r)) as ->.
  { apply list_find_Some. split; [done|]. split; [done|]. intros j y _ Hj. lia. }
  simpl. rewrite (delete_middle queue [] r). apply app_nil_r.
Qed.

(** * Further properties of the elevator *)

Lemma NumberSet_delete_absent (f : Z) (s : list Z) :
  f ∉ s → NumberSet.delete f s = s.
Proof.
  unfold NumberSet.delete. induction s as [|x s IH]; [done|].
  intros [Hne Hout]%not_elem_of_cons.
  rewrite filter_cons_True by done. by rewrite IH.
Qed.

(** X1: the destination set behaves as a set.  A floor added is a
    destination and a floor removed is not; other floors are unaffected;
    adding the same floor twice leaves the elevator as after the first
    call; and removing a floor that was freshly added gives back the
    destinations there were, in their order. *)
Theorem X1_destination_set_round_trip (e : Elevator.t) (f g : Z) :
  Elevator.hasDestination f (Elevator.addDestination f e) = true
  ∧ Elevator.hasDestination f (Elevator.removeDestination f e) = false
  ∧ (g ≠ f →
     Elevator.hasDestination g (Elevator.addDestination f e)
     = Elevator.hasDestination g e
     ∧ Elevator.hasDestination g (Elevator.removeDestination f e)
       = Elevator.hasDestination g e)
  ∧ Elevator.addDestination f (Elevator.addDestination f e)
    = Elevator.addDestination f e
  ∧ (Elevator.hasDestination f e = false →
     Elevator.destinationFloors
       (Elevator.removeDestination f (Elevator.addDestination f e))
     = Elevator.destinationFloors e).
Proof.
  unfold Elevator.hasDestination.
  destruct (addDestination_fields f e) as (_ & _ & Hadd).
  destruct (removeDestination_fields f e) as (_ & _ & Hdel).
  split; [|split; [|split; [|split]]].
  - apply bool_decide_eq_true. rewrite Hadd, elem_of_NumberSet_add. by left.
  - apply bool_decide_eq_false. rewrite Hdel, elem_of_NumberSet_delete. tauto.
  - intros Hne. split; apply bool_decide_ext.
    + rewrite Hadd, elem_of_NumberSet_add. tauto.
    + rewrite Hdel, elem_of_NumberSet_delete. tauto.
  - unfold Elevator.addDestination at 1.
    assert (Hin : f ∈ Elevator.destinationFloors (Elevator.addDestination f e)).
    { rewrite Hadd, elem_of_NumberSet_add. by left. }
    unfold NumberSet.add at 1. rewrite decide_True by done.
    replace (Elevator.with_destinationFloors _ _)
      with (Elevator.addDestination f e)
      by by destruct (Elevator.addDestination f e).
    apply updateDirection_idempotent.
  - intros Hout%bool_decide_eq_false.
    destruct (removeDestination_fields f (Elevator.addDestination f e))
      as (_ & _ & ->).
    rewrite Hadd. unfold NumberSet.add, NumberSet.delete.
    rewrite decide_False by done. rewrite filter_app, filter_cons_False by tauto.
    rewrite filter_nil, app_nil_r. by apply NumberSet_delete_absent.
Qed.

(** X2: [updateDirection] is idempotent, and after every history of
    building operations every elevator is a fixed point of it: its state
    is MOVING_UP, MOVING_DOWN or IDLE exactly as its direction is UP, DOWN
    or IDLE, and its direction is UP (DOWN) exactly when the stop
    [getNextDestination] selects lies above (below) the current floor. *)
Theorem X2_elevators_stay_on_course :
  (∀ e, Elevator.updateDirection (Elevator.updateDirection e)
        = Elevator.updateDirection e)
  ∧ ∀ tf te history,
      Forall (λ e,
                Elevator.updateDirection e = e
                ∧ match Elevator.getNextDestination e with
                  | None =>
                    Elevator.state e = ElevatorState.IDLE
                    ∧ Elevator.direction e = Direction.IDLE
                  | Some n =>
                    (Elevator.currentFloor e < n
                     ∧ Elevator.state e = ElevatorState.MOVING_UP
                     ∧ Elevator.direction e = Direction.UP)
                    ∨ (n < Elevator.currentFloor e
                       ∧ Elevator.state e = ElevatorState.MOVING_DOWN
                       ∧ Elevator.direction e = Direction.DOWN)
                    ∨ (n = Elevator.currentFloor e
                       ∧ Elevator.state e = ElevatorState.IDLE
                       ∧ Elevator.direction e = Direction.IDLE)
                  end)
             (elevators (run history (new tf te))).
Proof.
  split; [apply updateDirection_idempotent|].
  intros tf te history.
  assert (Hk : kept tf te (Floor.number <$> floors (new tf te))
                 (Elevator.id <$> elevators (new tf te)) on_course
                 (run history (new tf te))).
  { apply kept_run.
    - apply on_course_move.
    - intros f e _ _. apply on_course_updateDirection.
    - by intros e _.
    - apply kept_new. by intros i. }
  destruct Hk as (_ & _ & _ & _ & Hcourse & _).
  eapply Forall_impl; [exact Hcourse|].
  intros e He. split; [exact He|]. by apply on_course_spec.
Qed.

(** X3: an elevator on course whose selected stop [n] is on another floor
    goes straight to it: after [j] moves, for every [j] short of the
    distance, it is [j] floors nearer with its destinations untouched, and
    after exactly |n - currentFloor| moves it stands on [n] with [n], and
    nothing else, removed. *)
Theorem X3_straight_to_the_next_stop (e : Elevator.t) (n : Z) :
  Elevator.updateDirection e = e →
  Elevator.getNextDestination e = Some n →
  n ≠ Elevator.currentFloor e →
  let distance := Z.to_nat (Z.abs (n - Elevator.currentFloor e)) in
  (∀ j, (j < distance)%nat →
     Elevator.currentFloor (moves j e)
     = Elevator.currentFloor e + Z.of_nat j * Z.sgn (n - Elevator.currentFloor e)
     ∧ Elevator.destinationFloors (moves j e) = Elevator.destinationFloors e)
  ∧ Elevator.currentFloor (moves distance e) = n
  ∧ Elevator.destinationFloors (moves distance e)
    = NumberSet.delete n (Elevator.destinationFloors e).
Proof. intros Hcourse Hn Hne. by apply sweep_to_next. Qed.

Lemma X3_straight_to_the_next_stop_witness :
  let e := Elevator.mk 0 6 [2; 4] ElevatorState.MOVING_DOWN Direction.DOWN in
  let distance := Z.to_nat (Z.abs (4 - Elevator.currentFloor e)) in
  (∀ j, (j < distance)%nat →
     Elevator.currentFloor (moves j e)
     = Elevator.currentFloor e + Z.of_nat j * Z.sgn (4 - Elevator.currentFloor e)
     ∧ Elevator.destinationFloors (moves j e) = Elevator.destinationFloors e)
  ∧ Elevator.currentFloor (moves distance e) = 4
  ∧ Elevator.destinationFloors (moves distance e)
    = NumberSet.delete 4 (Elevator.destinationFloors e).
Proof.
  apply (X3_straight_to_the_next_stop
           (Elevator.mk 0 6 [2; 4] ElevatorState.MOVING_DOWN Direction.DOWN) 4).
  - reflexivity.
  - reflexivity.
  - simpl. lia.
Defined.

(** X4: left to itself, every elevator serves all its destinations: after
    some number of moves destinationFloors is empty and further moves
    change nothing, and every floor that was a destination has been the
    current floor after one of those moves. *)
Theorem X4_every_destination_is_visited (e : Elevator.t) :
  ∃ k, Elevator.destinationFloors (moves k e) = []
    ∧ (∀ j, (k ≤ j)%nat → moves j e = moves k e)
    ∧ ∀ f, f ∈ Elevator.destinationFloors e →
           ∃ j, (1 ≤ j ≤ k)%nat ∧ Elevator.currentFloor (moves j e) = f.
Proof.
  destruct (service (length (Elevator.destinationFloors e)) e) as [k Hk]; [done|].
  exists k. split; [done|]. split.
  - intros j Hj. replace j with ((j - k) + k)%nat by lia.
    rewrite moves_add. by apply moves_nowhere.
  - intros f Hf. apply removed_means_visited; [done|].
    rewrite Hk. apply not_elem_of_nil.
Qed.

(** * Further properties of the building *)

(** X5: after every history of building operations, a pressed hall button
    has a call waiting in the queue: an UP call at that floor behind a
    pressed up button, a call at that floor that is not UP behind a
    pressed down button.  (A button is released as soon as its call is
    assigned.) *)
Theorem X5_pressed_button_has_queued_call (tf te : Z) (history : list command) :
  ∀ (i : nat) (fl : Floor.t),
    floors (run history (new tf te)) !! i = Some fl →
    (Floor.upButtonPressed fl = true →
     ∃ r, r ∈ pendingRequests (run history (new tf te))
          ∧ FloorRequest.floor r = Z.of_nat i
          ∧ FloorRequest.direction r = Direction.UP)
    ∧ (Floor.downButtonPressed fl = true →
       ∃ r, r ∈ pendingRequests (run history (new tf te))
            ∧ FloorRequest.floor r = Z.of_nat i
            ∧ FloorRequest.direction r ≠ Direction.UP).
Proof.
  change (buttons_backed (run history (new tf te))).
  apply J_run.
  - apply backed_with_elevators.
  - apply backed_removePendingRequest.
  - intros i b. by apply backed_on_floor_release.
  - intros i b. by apply backed_on_floor_release.
  - apply backed_push.
  - apply backed_press.
  - apply backed_reset.
  - apply backed_new.
Qed.

Lemma X5_pressed_button_witness :
  (Floor.upButtonPressed (Floor.mk 5 false true) = true →
   ∃ r, r ∈ pendingRequests (run busy_morning (new 10 2))
        ∧ FloorRequest.floor r = Z.of_nat 5
        ∧ FloorRequest.direction r = Direction.UP)
  ∧ (Floor.downButtonPressed (Floor.mk 5 false true) = true →
     ∃ r, r ∈ pendingRequests (run busy_morning (new 10 2))
          ∧ FloorRequest.floor r = Z.of_nat 5
          ∧ FloorRequest.direction r ≠ Direction.UP).
Proof.
  apply (X5_pressed_button_has_queued_call 10 2 busy_morning 5%nat
           (Floor.mk 5 false true)).
  vm_compute. reflexivity.
Defined.

(** X6: after every history of building operations every floor still
    carries its index as number, the up button of the top floor is
    released and the down button of floor 0 is released. *)
Theorem X6_end_buttons_stay_dark (tf te : Z) (history : list command) :
  ∀ (i : nat) (fl : Floor.t),
    floors (run history (new tf te)) !! i = Some fl →
    Floor.number fl = Z.of_nat i
    ∧ (Z.of_nat i = tf - 1 → Floor.upButtonPressed fl = false)
    ∧ (i = 0%nat → Floor.downButtonPressed fl = false).
Proof.
  assert (Hdark : end_buttons_dark (run history (new tf te))).
  { apply J_run.
    - by intros b es Hb.
    - apply dark_removePendingRequest.
    - intros i b. by apply dark_on_floor.
    - intros i b. by apply dark_on_floor.
    - by intros f d b _ Hb.
    - apply dark_press.
    - apply dark_reset.
    - apply dark_new. }
  assert (Htf : totalFloors (run history (new tf te)) = tf).
  { eapply (kept_run tf te _ _ (λ _, True)); [done|done|done|].
    by apply kept_new. }
  intros i fl Hi. rewrite <- Htf. by apply Hdark.
Qed.

Lemma X6_end_buttons_witness :
  Floor.number (Floor.mk 0 true false) = Z.of_nat 0
  ∧ (Z.of_nat 0 = 10 - 1 → Floor.upButtonPressed (Floor.mk 0 true false) = false)
  ∧ (0%nat = 0%nat → Floor.downButtonPressed (Floor.mk 0 true false) = false).
Proof.
  apply (X6_end_buttons_stay_dark 10 1
           [ RequestElevatorFloor 0 5; Update; Update; Update;
             RequestElevator 0 Direction.UP ]
           0%nat (Floor.mk 0 true false)).
  vm_compute. reflexivity.
Defined.

(** X7: in a building with at least one floor no operation ever throws:
    after every history from initialization, each of requestElevator,
    requestElevatorFloor, update and reset returns normally. *)
Theorem X7_no_operation_throws (tf te : Z) (history : list command) (c : command) :
  1 ≤ tf →
  exec c (run history (new tf te))
  = Normal (after (exec c (run history (new tf te)))).
Proof.
  intros Htf.
  eapply exec_returns; [apply new_floor_numbers_length|].
  by apply sound_run.
Qed.

Lemma X7_no_operation_throws_witness :
  exec Update (run busy_morning (new 10 2))
  = Normal (after (exec Update (run busy_morning (new 10 2)))).
Proof. apply (X7_no_operation_throws 10 2 busy_morning Update). lia. Defined.

Lemma arrivals_thrown (es : list Elevator.t) (b : t) :
  foldl (λ c elevator, and_then c (arrival elevator)) (TypeError b) es
  = TypeError b.
Proof. induction es as [|e es IH]; simpl; done. Qed.

(** X8: a building constructed with no floor but at least one elevator
    throws on its first tick: the elevator stands at floor 0, which
    [checkElevatorArrivals] looks up among floors that do not exist.  The
    building is left as constructed. *)
Theorem X8_update_throws_without_floors (tf te : Z) :
  tf ≤ 0 → 1 ≤ te → update (new tf te) = TypeError (new tf te).
Proof.
  intros Htf Hte. unfold update.
  assert (Hmoved : with_elevators (new tf te)
                     ((λ e, (Elevator.move e).2) <$> elevators (new tf te))
                   = new tf te).
  { unfold new, with_elevators. simpl. f_equal.
    unfold array_from. rewrite <- list_fmap_compose. by apply list_fmap_ext. }
  rewrite Hmoved. simpl. unfold checkElevatorArrivals.
  assert (Hfloors : floors (new tf te) = []).
  { simpl. unfold array_from. by replace (Z.to_nat tf) with 0%nat by lia. }
  destruct (elevators (new tf te)) as [|e es] eqn:Hes.
  { exfalso. apply (f_equal length) in Hes. simpl in Hes.
    unfold array_from in Hes. rewrite length_fmap, length_seq in Hes. lia. }
  simpl. unfold arrival at 2. rewrite Hfloors.
  assert (at_index (@nil Floor.t) (Elevator.currentFloor e) = None) as ->.
  { unfold at_index. by case_decide. }
  apply arrivals_thrown.
Qed.

Lemma X8_update_throws_without_floors_witness :
  update (new 0 1) = TypeError (new 0 1).
Proof. apply (X8_update_throws_without_floors 0 1); lia. Defined.

(** X9: [requestElevatorFloor] always returns normally and touches nothing
    but the addressed elevator: floors, queue and the other elevators are
    as before.  With the floor out of range or no elevator of that id it
    changes nothing at all; otherwise the addressed elevator receives
    [addDestination] of the floor. *)
Theorem X9_requestElevatorFloor_touches_one_elevator (b : t) (i f : Z) :
  let b' := after (requestElevatorFloor i f b) in
  requestElevatorFloor i f b = Normal b'
  ∧ floors b' = floors b
  ∧ pendingRequests b' = pendingRequests b
  ∧ totalFloors b' = totalFloors b
  ∧ totalElevators b' = totalElevators b
  ∧ length (elevators b') = length (elevators b)
  ∧ (∀ j, j ≠ Z.to_nat i → elevators b' !! j = elevators b !! j)
  ∧ (f < 0 ∨ totalFloors b ≤ f ∨ i < 0 ∨ Z.of_nat (length (elevators b)) ≤ i →
     b' = b)
  ∧ (0 ≤ f < totalFloors b → 0 ≤ i →
     ∀ e, elevators b !! Z.to_nat i = Some e →
          elevators b' !! Z.to_nat i = Some (Elevator.addDestination f e)).
Proof.
  unfold requestElevatorFloor.
  destruct (decide (f < 0 ∨ totalFloors b ≤ f)) as [Hf|Hf]; simpl.
  { repeat split; try done. intros ? ? ?. lia. }
  destruct (at_index (elevators b) i) as [e|] eqn:Hi; simpl.
  - apply at_index_Some in Hi as [Hi0 Hi].
    pose proof (lookup_lt_Some _ _ _ Hi) as Hlt.
    split; [done|]. do 4 (split; [done|]).
    split; [by rewrite length_insert|].
    split; [intros j Hj; by rewrite list_lookup_insert_ne|].
    split; [intros [?|[?|[?|?]]]; lia|].
    intros _ _ e' He'. rewrite list_lookup_insert_eq by done. congruence.
  - repeat split; try done. intros _ Hi0 e He. exfalso.
    unfold at_index in Hi. rewrite decide_True in Hi by done. congruence.
Qed.

(** X10: no history of building operations changes the shape of the
    building: totalFloors and totalElevators are those given to the
    constructor, the floors are numbered 0, 1, ... in array order and the
    elevators carry the ids 0, 1, ... in array order (none for a count
    that is zero or negative). *)
Theorem X10_arrays_keep_their_shape (tf te : Z) (history : list command) :
  let b := run history (new tf te) in
  totalFloors b = tf
  ∧ totalElevators b = te
  ∧ Floor.number <$> floors b = Z.of_nat <$> seq 0 (Z.to_nat tf)
  ∧ Elevator.id <$> elevators b = Z.of_nat <$> seq 0 (Z.to_nat te).
Proof.
  intros b.
  assert (Hb : kept tf te (Floor.number <$> floors (new tf te))
                 (Elevator.id <$> elevators (new tf te)) (λ _, True) b).
  { apply kept_run; [done|done|done|]. by apply kept_new. }
  destruct Hb as (Htf & Hte & Hnum & Hids & _).
  split; [done|]. split; [done|]. rewrite Hnum, Hids. simpl.
  unfold array_from. by rewrite <- !list_fmap_compose.
Qed.

(** X11: an UP call that no elevator can serve joins the queue, and lights
    the up button of its floor unless that floor's number is 9: floor 9 is
    hard-coded as the top floor in [pressUpButton], so in a taller
    building its up call is queued with the button left as it was. *)
Theorem X11_up_call_lights_button_unless_floor_nine
    (b : t) (f : Z) (fl : Floor.t) :
  0 ≤ f < totalFloors b - 1 →
  at_index (floors b) f = Some fl →
  Floor.number fl = f →
  Forall (λ e, Elevator.canHandleRequest e (FloorRequest.mk f Direction.UP) = false)
         (elevators b) →
  let b' := after (requestElevator f Direction.UP b) in
  requestElevator f Direction.UP b = Normal b'
  ∧ pendingRequests b' = pendingRequests b ++ [FloorRequest.mk f Direction.UP]
  ∧ ∃ fl', at_index (floors b') f = Some fl'
      ∧ Floor.upButtonPressed fl'
        = (if decide (f = 9) then Floor.upButtonPressed fl else true)
      ∧ Floor.downButtonPressed fl' = Floor.downButtonPressed fl.
Proof.
  intros Hf Hfl Hnum Hnone. unfold requestElevator.
  rewrite decide_False by lia.
  rewrite (decide_False (P := f = 0 ∧ Direction.UP = Direction.DOWN))
    by (by intros [_ ?]).
  rewrite (decide_False (P := f = totalFloors b - 1 ∧ _)) by lia.
  simpl. rewrite Hfl. simpl.
  rewrite assignRequestToElevator_nobody
    by (by apply availableElevators_nil).
  simpl. split; [done|]. split; [done|].
  exists (Floor.pressUpButton fl). split.
  - by apply (on_floor_at f Floor.pressUpButton
                (with_pendingRequests b
                   (pendingRequests b ++ [FloorRequest.mk f Direction.UP]))).
  - unfold Floor.pressUpButton. rewrite Hnum.
    destruct (decide (f = 9)) as [->|Hne].
    + by rewrite decide_False by (intros Hne; by apply Hne).
    + by rewrite decide_True.
Qed.

Lemma X11_up_call_lights_button_witness :
  let b := run [ RequestElevatorFloor 0 11; Update; Update; Update; Update;
                 Update; Update; Update; Update; Update; Update ] (new 12 1) in
  let b' := after (requestElevator 9 Direction.UP b) in
  requestElevator 9 Direction.UP b = Normal b'
  ∧ pendingRequests b' = pendingRequests b ++ [FloorRequest.mk 9 Direction.UP]
  ∧ ∃ fl', at_index (floors b') 9 = Some fl'
      ∧ Floor.upButtonPressed fl'
        = (if decide (9 = 9) then Floor.upButtonPressed (Floor.mk 9 false false)
           else true)
      ∧ Floor.downButtonPressed fl'
        = Floor.downButtonPressed (Floor.mk 9 false false).
Proof.
  apply (X11_up_call_lights_button_unless_floor_nine
           (run [ RequestElevatorFloor 0 11; Update; Update; Update; Update;
                  Update; Update; Update; Update; Update; Update ] (new 12 1))
           9 (Floor.mk 9 false false)).
  - replace (totalFloors _) with 12 by (vm_compute; reflexivity). lia.
  - vm_compute. reflexivity.
  - reflexivity.
  - vm_compute. repeat constructor.
Defined.

(** X12: a hall call that some elevator can serve, for a pair with no call
    queued, is assigned within [requestElevator] itself: the queue is left
    exactly as it was and the pair's button ends released, so the button
    is never seen lit for a call that was assigned on the spot. *)
Theorem X12_assigned_call_releases_button_at_once
    (b : t) (f : Z) (d : Direction.t) (fl : Floor.t) :
  0 ≤ f < totalFloors b →
  ¬ (f = 0 ∧ d = Direction.DOWN) →
  ¬ (f = totalFloors b - 1 ∧ d = Direction.UP) →
  at_index (floors b) f = Some fl →
  Exists (λ e, Elevator.canHandleRequest e (FloorRequest.mk f d) = true)
         (elevators b) →
  outstanding f d b = 0%nat →
  let b' := after (requestElevator f d b) in
  requestElevator f d b = Normal b'
  ∧ pendingRequests b' = pendingRequests b
  ∧ ∃ fl', at_index (floors b') f = Some fl'
      ∧ (if decide (d = Direction.UP)
         then Floor.upButtonPressed fl' = false
              ∧ Floor.downButtonPressed fl' = Floor.downButtonPressed fl
         else Floor.downButtonPressed fl' = false
              ∧ Floor.upButtonPressed fl' = Floor.upButtonPressed fl).
Proof.
  intros Hf Hdown Hup Hfl Hsome Hzero. unfold requestElevator.
  rewrite decide_False by lia. rewrite !decide_False by done.
  simpl. rewrite Hfl.
  set (r := FloorRequest.mk f d).
  set (b2 := if decide (d = Direction.UP) then _ else _).
  set (press := if decide (d = Direction.UP)
                then Floor.pressUpButton else Floor.pressDownButton).
  assert (Hb2 : elevators b2 = elevators b
                ∧ pendingRequests b2 = pendingRequests b ++ [r]
                ∧ at_index (floors b2) f = Some (press fl)).
  { subst b2 press. case_decide; (split; [done|]); (split; [done|]);
      by apply (on_floor_at f _ (with_pendingRequests b (pendingRequests b ++ [r]))). }
  destruct Hb2 as (Hel & Hq & Hfl2). clearbody b2.
  assert (Hfresh : Forall (λ x, ¬ same_call r x) (pendingRequests b)).
  { apply Forall_forall. intros x Hx Hsame.
    apply length_zero_iff_nil in Hzero.
    by apply (filter_nil_not_elem_of _ _ x Hzero). }
  unfold assignRequestToElevator.
  destruct (availableElevators r b2) as [|first rest] eqn:Hav.
  { exfalso. apply availableElevators_nil in Hav. rewrite Hel in Hav.
    apply Exists_exists in Hsome as (e & He & Hcan). fold r in Hcan.
    rewrite Forall_forall in Hav. rewrite (Hav e He) in Hcan. done. }
  set (b3 := with_elevators b2 _).
  destruct (removePendingRequest_cases r b3) as (Hq' & _ & _ & _ & Hcase).
  simpl in Hq'. rewrite Hq, (without_first_call_just_pushed r _ Hfresh) in Hq'.
  assert (Hnone : ¬ Exists (same_call r)
                      (pendingRequests (after (removePendingRequest r b3)))).
  { rewrite Hq'. by apply Forall_not_Exists. }
  destruct Hcase as [(Hex & _)|[(_ & Hmiss & _)|(_ & _ & Hfloors & Hret)]].
  - done.
  - simpl in Hmiss. congruence.
  - split; [done|]. split; [done|].
    apply at_index_Some in Hfl2 as [Hf0 Hfl2].
    exists ((if decide (d = Direction.UP)
             then Floor.releaseUpButton else Floor.releaseDownButton)
              (press fl)).
    split.
    + apply at_index_Some. split; [done|].
      rewrite Hfloors. simpl. by rewrite list_lookup_alter_eq, Hfl2.
    + subst press. destruct (decide (d = Direction.UP)); simpl.
      * split; [done|]. unfold Floor.pressUpButton.
        by destruct (decide (Floor.number fl ≠ 9)).
      * split; [done|]. unfold Floor.pressDownButton.
        by destruct (decide (Floor.number fl ≠ 0)).
Qed.

Lemma X12_assigned_call_releases_button_witness :
  let b := new 10 4 in
  let b' := after (requestElevator 5 Direction.UP b) in
  requestElevator 5 Direction.UP b = Normal b'
  ∧ pendingRequests b' = pendingRequests b
  ∧ ∃ fl', at_index (floors b') 5 = Some fl'
      ∧ (if decide (Direction.UP = Direction.UP)
         then Floor.upButtonPressed fl' = false
              ∧ Floor.downButtonPressed fl'
                = Floor.downButtonPressed (Floor.new 5)
         else Floor.downButtonPressed fl' = false
              ∧ Floor.upButtonPressed fl' = Floor.upButtonPressed (Floor.new 5)).
Proof.
  apply (X12_assigned_call_releases_button_at_once
           (new 10 4) 5 Direction.UP (Floor.new 5)).
  - simpl. lia.
  - intros [? _]. lia.
  - intros [? _]. simpl in *. lia.
  - reflexivity.
  - vm_compute. left. reflexivity.
  - reflexivity.
Defined.

Lemma filter_delete_other {A} (P : A → Prop) `{∀ x, Decision (P x)}
    (l : list A) (k : nat) (x : A) :
  l !! k = Some x → ¬ P x → filter P (delete k l) = filter P l.
Proof.
  intros Hk HP. rewrite delete_take_drop.
  rewrite <- (take_drop_middle l k x Hk) at 3.
  by rewrite !filter_app, filter_cons_False.
Qed.

Lemma filter_nobody {A} (P : A → Prop) `{∀ x, Decision (P x)} (l : list A) :
  Forall (not ∘ P) l → filter P l = [].
Proof.
  induction l as [|y l IH]; [done|]. intros [Hy Hl]%Forall_cons.
  rewrite filter_cons_False by exact Hy. by apply IH.
Qed.

(** X13: [removePendingRequest] removes one queued call for the pair of
    its argument, the first, when there is one; calls for every other pair
    stay, and so do the elevators.  As long as a call for the pair remains
    queued the floors are left alone. *)
Theorem X13_removePendingRequest_takes_one_call (r : FloorRequest.t) (b : t) :
  let b' := after (removePendingRequest r b) in
  outstanding (FloorRequest.floor r) (FloorRequest.direction r) b'
  = pred (outstanding (FloorRequest.floor r) (FloorRequest.direction r) b)
  ∧ (∀ g d, ¬ (g = FloorRequest.floor r ∧ d = FloorRequest.direction r) →
            outstanding g d b' = outstanding g d b)
  ∧ elevators b' = elevators b
  ∧ ((0 < outstanding (FloorRequest.floor r) (FloorRequest.direction r) b')%nat →
     floors b' = floors b ∧ removePendingRequest r b = Normal b').
Proof.
  destruct r as [f d]. cbn [FloorRequest.floor FloorRequest.direction].
  set (r := FloorRequest.mk f d).
  destruct (removePendingRequest_cases r b) as (Hq & Hel & _ & _ & Hcase).
  set (b' := after (removePendingRequest r b)) in *. clearbody b'.
  unfold outstanding. fold r. rewrite Hq. unfold without_first_call.
  split; [|split; [|split]].
  - destruct (list_find _ _) as [[k x]|] eqn:Hfind.
    + rewrite (filter_delete_found _ _ _ _ Hfind). done.
    + apply list_find_None in Hfind.
      by rewrite (filter_nobody _ _ Hfind).
  - intros g d' Hother.
    destruct (list_find _ _) as [[k x]|] eqn:Hfind; [|done].
    apply list_find_Some in Hfind as (Hk & [Hxf Hxd] & _).
    f_equal. apply (filter_delete_other _ _ k x Hk).
    intros [Hf Hd]. simpl in *. apply Hother. split; congruence.
  - done.
  - intros Hleft.
    destruct Hcase as [(_ & ? & ?)|[(Hnex & _)|(Hnex & _)]]; [done| |];
      exfalso; apply Hnex; rewrite Hq; unfold without_first_call;
      (destruct (filter _ _) as [|y l] eqn:Hfil; [simpl in Hleft; lia|]);
      assert (Hy : y ∈ filter (same_call r)
                     (match list_find (same_call r) (pendingRequests b) with
                      | Some (index, _) => delete index (pendingRequests b)
                      | None => pendingRequests b
                      end)) by (rewrite Hfil; left);
      apply list_elem_of_filter in Hy as [? ?];
      apply Exists_exists; by exists y.
Qed.

Lemma requestElevator_positions (f : Z) (d : Direction.t) (b : t) :
  Elevator.currentFloor <$> elevators (after (requestElevator f d b))
  = Elevator.currentFloor <$> elevators b.
Proof.
  unfold requestElevator.
  do 3 (destruct (decide _); [done|]).
  destruct (at_index _ _); [|done].
  rewrite assignRequestToElevator_positions. by case_decide.
Qed.

Lemma requestElevatorFloor_positions (i f : Z) (b : t) :
  Elevator.currentFloor <$> elevators (after (requestElevatorFloor i f b))
  = Elevator.currentFloor <$> elevators b.
Proof.
  unfold requestElevatorFloor.
  destruct (decide _); [done|].
  destruct (at_index _ _) as [e|] eqn:Hi; [|done].
  apply at_index_Some in Hi as [_ Hi]. simpl.
  rewrite list_fmap_insert. apply list_insert_id.
  rewrite list_lookup_fmap, Hi. simpl.
  by destruct (addDestination_fields f e) as (_ & -> & _).
Qed.

(** X14: a hall call or a panel request moves no elevator, and one tick
    moves each elevator by at most one floor: the elevators stay as many,
    and the one in each slot ends at its former floor, one above or one
    below. *)
Theorem X14_tick_moves_each_car_at_most_one_floor (b : t) :
  (∀ f d, Elevator.currentFloor <$> elevators (after (requestElevator f d b))
          = Elevator.currentFloor <$> elevators b)
  ∧ (∀ i f, Elevator.currentFloor <$> elevators (after (requestElevatorFloor i f b))
            = Elevator.currentFloor <$> elevators b)
  ∧ length (elevators (after (update b))) = length (elevators b)
  ∧ ∀ (i : nat) e e',
      elevators b !! i = Some e →
      elevators (after (update b)) !! i = Some e' →
      Z.abs (Elevator.currentFloor e' - Elevator.currentFloor e) ≤ 1.
Proof.
  split; [intros; apply requestElevator_positions|].
  split; [intros; apply requestElevatorFloor_positions|].
  pose proof (update_positions b) as Hpos. split.
  - apply (f_equal length) in Hpos. by rewrite !length_fmap in Hpos.
  - intros i e e' He He'.
    apply (f_equal (λ l, l !! i)) in Hpos.
    rewrite !list_lookup_fmap, He, He' in Hpos. simpl in Hpos.
    injection Hpos as ->. apply move_at_most_one_floor.
Qed.

Lemma arrivals_fixed (es : list Elevator.t) (b : t) :
  Forall (λ e, arrival e b = Normal b) es →
  foldl (λ c elevator, and_then c (arrival elevator)) (Normal b) es = Normal b.
Proof.
  induction es as [|e es IH]; [done|]. intros [He Hes]%Forall_cons.
  simpl. rewrite He. by apply IH.
Qed.

(** X15: a tick changes nothing in a building at rest: with nothing
    queued, no elevator holding a destination, all of them IDLE and
    standing at floors of the building, [update] returns the building it
    was given. *)
Theorem X15_resting_building_ticks_to_itself (b : t) :
  at_rest b → indexable b → update b = Normal b.
Proof.
  intros [Hq Hes] (Hlen & Hin & _). unfold update.
  assert (Hmoved : (λ e, (Elevator.move e).2) <$> elevators b = elevators b).
  { rewrite <- (list_fmap_id (elevators b)) at 2.
    apply list_fmap_ext. intros i e Hi.
    rewrite Forall_lookup in Hes. destruct (Hes i e Hi) as [Hds _].
    by rewrite (move_nowhere e Hds). }
  rewrite Hmoved, with_elevators_same, Hq. simpl.
  unfold checkElevatorArrivals.
  assert (Hall : Forall (λ e, arrival e b = Normal b) (elevators b)).
  { apply Forall_forall. intros e He.
    rewrite Forall_forall in Hes, Hin.
    destruct (Hes e He) as [_ Hdir]. destruct (Hin e He) as [Hcur _].
    apply arrival_idle; [done|]. unfold at_index.
    rewrite decide_True by lia. apply lookup_lt_is_Some. lia. }
  by apply arrivals_fixed.
Qed.

Lemma X15_resting_building_witness : update (new 10 4) = Normal (new 10 4).
Proof.
  apply (X15_resting_building_ticks_to_itself (new 10 4)).
  - split; [reflexivity|]. vm_compute. repeat constructor.
  - split; [reflexivity|]. split; vm_compute; repeat constructor; discriminate.
Defined.

(** X16: when no elevator can serve any queued call, the assignment phase
    of a tick tries every queued call, in order, and changes nothing. *)
Theorem X16_unservable_queue_is_walked_in_full (b : t) :
  Forall (λ r, Forall (λ e, Elevator.canHandleRequest e r = false) (elevators b))
         (pendingRequests b) →
  forEachPending (length (pendingRequests b)) 0 b
  = (pendingRequests b, Normal b).
Proof.
  intros Hnone.
  by rewrite (forEachPending_nobody _ 0 b Hnone) by lia.
Qed.

Lemma X16_unservable_queue_witness :
  forEachPending (length (pendingRequests (run busy_morning (new 10 2)))) 0
                 (run busy_morning (new 10 2))
  = (pendingRequests (run busy_morning (new 10 2)),
     Normal (run busy_morning (new 10 2))).
Proof.
  apply (X16_unservable_queue_is_walked_in_full (run busy_morning (new 10 2))).
  vm_compute. repeat constructor.
Defined.

(** X17: the two queries of a floor agree with its buttons.
    [getActiveRequests] lists UP exactly when the up button is pressed and
    DOWN exactly when the down button is pressed, UP first, never IDLE and
    nothing twice; [hasActiveRequest] holds exactly when that list is not
    empty; and releasing both buttons leaves no active request whatever
    was pressed. *)
Theorem X17_floor_queries_agree (fl : Floor.t) :
  (Direction.UP ∈ Floor.getActiveRequests fl ↔ Floor.upButtonPressed fl = true)
  ∧ (Direction.DOWN ∈ Floor.getActiveRequests fl
     ↔ Floor.downButtonPressed fl = true)
  ∧ (Direction.IDLE ∉ Floor.getActiveRequests fl)
  ∧ NoDup (Floor.getActiveRequests fl)
  ∧ (Floor.hasActiveRequest fl = true ↔ Floor.getActiveRequests fl ≠ [])
  ∧ Floor.hasActiveRequest
      (Floor.releaseDownButton
         (Floor.releaseUpButton (Floor.pressDownButton (Floor.pressUpButton fl))))
    = false.
Proof.
  assert (Hreleased : Floor.hasActiveRequest
            (Floor.releaseDownButton
               (Floor.releaseUpButton
                  (Floor.pressDownButton (Floor.pressUpButton fl)))) = false)
    by done.
  destruct fl as [n up down].
  unfold Floor.getActiveRequests, Floor.hasActiveRequest in *. simpl in *.
  split; [|split; [|split; [|split; [|split; [|exact Hreleased]]]]];
    clear Hreleased; destruct up, down; simpl;
    rewrite ?elem_of_cons, ?elem_of_nil; try done; try tauto;
    try (intros [?|[?|?]]; done); try (intros [?|?]; done);
    try (split; [done|]; intros [?|[?|?]]; done);
    try (split; [done|]; intros [?|?]; done);
    try (split; [intros [?|[?|?]]; done|by auto]);
    try (split; [intros [?|?]; done|by auto]).
  - apply NoDup_cons. split; [|apply NoDup_singleton].
    rewrite list_elem_of_singleton. done.
  - apply NoDup_singleton.
  - apply NoDup_singleton.
  - apply NoDup_nil. done.
Qed.

(** * Coming to rest *)

Lemma without_first_call_nil (r : FloorRequest.t) : without_first_call r [] = [].
Proof. done. Qed.

Lemma arrival_quiet (e : Elevator.t) (b : t) :
  pendingRequests b = [] → pendingRequests (after (arrival e b)) = [].
Proof.
  intros Hq. unfold arrival. destruct (at_index _ _); [|done].
  set (c := if _ && _ then _ else _).
  assert (Hc : pendingRequests (after c) = []).
  { subst c. destruct (_ && _); [|done].
    destruct (removePendingRequest_cases
                (FloorRequest.mk (Elevator.currentFloor e) Direction.UP)
                (on_floor (Elevator.currentFloor e) Floor.releaseUpButton b))
      as (-> & _). simpl. by rewrite Hq. }
  clearbody c. destruct c as [b1|b1]; simpl in *; [|done].
  destruct (at_index _ _); [|done]. destruct (_ && _); [|done].
  destruct (removePendingRequest_cases
              (FloorRequest.mk (Elevator.currentFloor e) Direction.DOWN)
              (on_floor (Elevator.currentFloor e) Floor.releaseDownButton b1))
    as (-> & _). simpl. by rewrite Hc.
Qed.

Lemma arrivals_quiet (es : list Elevator.t) (c : completion) :
  pendingRequests (after c) = [] →
  pendingRequests
    (after (foldl (λ c elevator, and_then c (arrival elevator)) c es)) = [].
Proof.
  revert c. induction es as [|e es IH]; intros c Hc; simpl; [done|].
  apply IH. destruct c; simpl in *; [by apply arrival_quiet|done].
Qed.

Lemma update_quiet (b : t) :
  pendingRequests b = [] →
  pendingRequests (after (update b)) = []
  ∧ elevators (after (update b)) = (λ e, (Elevator.move e).2) <$> elevators b.
Proof.
  intros Hq. unfold update. simpl. rewrite Hq. simpl.
  unfold checkElevatorArrivals. split.
  - by apply arrivals_quiet.
  - by rewrite arrivals_elevators.
Qed.

Lemma ticks_quiet (k : nat) (b : t) :
  pendingRequests b = [] →
  pendingRequests (run (replicate k Update) b) = []
  ∧ elevators (run (replicate k Update) b) = moves k <$> elevators b.
Proof.
  revert b. induction k as [|k IH]; intros b Hq; simpl.
  - split; [done|]. by rewrite list_fmap_id.
  - destruct (update_quiet b Hq) as [Hq' Hes].
    destruct (IH (after (update b)) Hq') as [-> ->]. split; [done|].
    rewrite Hes, <- list_fmap_compose. apply list_fmap_ext.
    intros _ e _. by rewrite moves_succ_r.
Qed.

Lemma served_for_good (e : Elevator.t) :
  ∃ k, ∀ j, (k ≤ j)%nat → Elevator.destinationFloors (moves j e) = [].
Proof.
  destruct (service (length (Elevator.destinationFloors e)) e) as [k Hk]; [done|].
  exists k. intros j Hj. replace j with ((j - k) + k)%nat by lia.
  rewrite moves_add. by rewrite moves_nowhere.
Qed.

Lemma all_served_for_good (es : list Elevator.t) :
  ∃ k, ∀ j, (k ≤ j)%nat →
    Forall (λ e, Elevator.destinationFloors (moves j e) = []) es.
Proof.
  induction es as [|e es [k Hk]].
  - exists 0%nat. intros j _. constructor.
  - destruct (served_for_good e) as [k' Hk'].
    exists (k `max` k')%nat. intros j Hj. constructor.
    + apply Hk'. lia.
    + apply Hk. lia.
Qed.

(** X18: with the queue empty and no further request, the building comes
    to rest: there is a number of ticks after which, and from then on,
    the queue is still empty and every elevator has no destination left
    and is IDLE. *)
Theorem X18_quiet_building_comes_to_rest (b : t) :
  pendingRequests b = [] →
  Forall (λ e, Elevator.updateDirection e = e) (elevators b) →
  ∃ k, ∀ j, (k ≤ j)%nat → at_rest (run (replicate j Update) b).
Proof.
  intros Hq Hcourse.
  destruct (all_served_for_good (elevators b)) as [k Hk].
  exists k. intros j Hj.
  destruct (ticks_quiet j b Hq) as [Hq' Hes]. split; [done|].
  rewrite Hes. apply Forall_fmap.
  specialize (Hk j Hj). rewrite Forall_forall in Hk, Hcourse.
  apply Forall_forall. intros e He. simpl. split; [by apply Hk|].
  pose proof (on_course_moves j e (Hcourse e He)) as Hc.
  apply on_course_spec in Hc.
  rewrite (proj2 (getNextDestination_None _) (Hk e He)) in Hc. apply Hc.
Qed.

Lemma X18_quiet_building_witness :
  ∃ k, ∀ j, (k ≤ j)%nat →
    at_rest (run (replicate j Update)
                 (after (requestElevator 5 Direction.UP (new 10 4)))).
Proof.
  apply (X18_quiet_building_comes_to_rest
           (after (requestElevator 5 Direction.UP (new 10 4)))).
  - reflexivity.
  - vm_compute. repeat constructor.
Defined.

(** X19: an elevator on course skips no stop: after a move, the floor it
    stands on is not among the destinations it still holds. *)
Theorem X19_no_stop_is_skipped (e : Elevator.t) :
  Elevator.updateDirection e = e →
  Elevator.destinationFloors e ≠ [] →
  Elevator.hasDestination (Elevator.currentFloor (Elevator.move e).2)
                          (Elevator.move e).2 = false.
Proof.
  intros Hcourse Hds. apply bool_decide_eq_false.
  destruct (Elevator.getNextDestination e) as [n|] eqn:Hn;
    [|by apply getNextDestination_None in Hn].
  pose proof (getNextDestination_elem e n Hn) as Hin.
  destruct (move_fields e n Hn) as (_ & _ & Hcur & Hds').
  rewrite Hds'. case_decide as Hat.
  { rewrite elem_of_NumberSet_delete. tauto. }
  destruct (Elevator.destinationFloors e) as [|first rest] eqn:Hdse; [done|].
  destruct (getNextDestination_cases e first rest Hdse) as (m & Hm & _ & Hcase).
  assert (m = n) as -> by congruence. rewrite <- Hdse in *.
  apply on_course_spec in Hcourse. rewrite Hn in Hcourse.
  intros Hstand.
  destruct Hcourse as [(Hlt & _ & Hdir)|[(Hlt & _ & Hdir)|(Heq & _)]].
  - destruct Hcase as [(_ & _ & Hleast)|[(? & _)|(_ & Hno & _)]].
    + specialize (Hleast _ Hstand). lia.
    + congruence.
    + by destruct (Hno Hdir n Hin).
  - destruct Hcase as [(? & _)|[(_ & _ & Hgreatest)|(_ & _ & Hno)]].
    + congruence.
    + specialize (Hgreatest _ Hstand). lia.
    + by destruct (Hno Hdir n Hin).
  - rewrite Hcur in Hat. apply Hat. lia.
Qed.

Lemma X19_no_stop_is_skipped_witness :
  let e := Elevator.mk 0 3 [7; 5] ElevatorState.MOVING_UP Direction.UP in
  Elevator.hasDestination (Elevator.currentFloor (Elevator.move e).2)
                          (Elevator.move e).2 = false.
Proof.
  apply (X19_no_stop_is_skipped
           (Elevator.mk 0 3 [7; 5] ElevatorState.MOVING_UP Direction.UP)).
  - reflexivity.
  - discriminate.
Defined.

(** * A call placed in a building at rest *)

Lemma moves_id (k : nat) (e : Elevator.t) : Elevator.id (moves k e) = Elevator.id e.
Proof.
  induction k as [|k IH]; [done|].
  change (moves (S k) e) with (Elevator.move (moves k e)).2.
  by rewrite move_id.
Qed.

Lemma addDestination_from_rest (i f : Z) :
  0 < f →
  Elevator.addDestination f (Elevator.new i)
  = Elevator.mk i 0 [f] ElevatorState.MOVING_UP Direction.UP.
Proof.
  intros Hf. unfold Elevator.addDestination, Elevator.new. simpl.
  rewrite updateDirection_by_next. simpl. by rewrite decide_True by lia.
Qed.

Lemma moves_to_the_call (i f : Z) :
  0 < f →
  moves (Z.to_nat f)
        (Elevator.mk i 0 [f] ElevatorState.MOVING_UP Direction.UP)
  = Elevator.mk i f [] ElevatorState.IDLE Direction.IDLE.
Proof.
  intros Hf.
  set (e := Elevator.mk i 0 [f] ElevatorState.MOVING_UP Direction.UP).
  assert (Hn : Elevator.getNextDestination e = Some f).
  { apply getNextDestination_up_least; simpl; [done|left|lia|].
    intros x ->%list_elem_of_singleton _. lia. }
  assert (Hcourse : on_course e).
  { unfold on_course. rewrite updateDirection_by_next, Hn. simpl.
    by rewrite decide_True by lia. }
  destruct (sweep_to_next e f Hcourse Hn) as (_ & Hcur & Hds).
  { simpl. lia. }
  simpl in Hcur, Hds. rewrite Z.sub_0_r, Z.abs_eq in Hcur, Hds by lia.
  pose proof (on_course_moves (Z.to_nat f) e Hcourse) as Hc.
  pose proof (moves_id (Z.to_nat f) e) as Hid.
  assert (Hempty : Elevator.destinationFloors (moves (Z.to_nat f) e) = []).
  { rewrite Hds. unfold NumberSet.delete.
    rewrite filter_cons_False by (intros Hne; by apply Hne). done. }
  apply on_course_spec in Hc.
  rewrite (proj2 (getNextDestination_None _) Hempty) in Hc.
  destruct Hc as [Hst Hdir].
  destruct (moves (Z.to_nat f) e) as [i' c ds s d]. simpl in *. congruence.
Qed.

Lemma request_from_rest (tf te f : Z) (d : Direction.t) :
  1 ≤ te → 0 ≤ f < tf →
  ¬ (f = 0 ∧ d = Direction.DOWN) → ¬ (f = tf - 1 ∧ d = Direction.UP) →
  pendingRequests (after (requestElevator f d (new tf te))) = []
  ∧ elevators (after (requestElevator f d (new tf te)))
    = <[0%nat := Elevator.addDestination f (Elevator.new 0)]>
        (elevators (new tf te)).
Proof.
  intros Hte Hf Hdown Hup. unfold requestElevator.
  rewrite decide_False by (simpl; lia). rewrite !decide_False by done.
  destruct (at_index _ f) as [fl|] eqn:Hfl.
  2:{ exfalso. unfold at_index in Hfl. rewrite decide_True in Hfl by lia.
      apply lookup_ge_None in Hfl. simpl in Hfl. unfold array_from in Hfl.
      rewrite length_fmap, length_seq in Hfl. lia. }
  set (r := FloorRequest.mk f d).
  set (b2 := if decide (d = Direction.UP) then _ else _).
  assert (Hb2 : elevators b2 = elevators (new tf te) ∧ pendingRequests b2 = [r]).
  { subst b2. by case_decide. }
  destruct Hb2 as [Hel Hq]. clearbody b2.
  assert (Hzero : elevators b2 !! 0%nat = Some (Elevator.new 0)).
  { rewrite Hel. simpl. unfold array_from.
    destruct (Z.to_nat te) as [|n] eqn:Hn; [lia|]. done. }
  assert (Hrest : ∀ i e, elevators b2 !! i = Some e → e = Elevator.new (Z.of_nat i)).
  { intros i e. rewrite Hel. apply array_from_lookup. }
  assert (Hin0 : (0%nat, Elevator.new 0) ∈ availableElevators r b2)
    by by apply elem_of_availableElevators.
  unfold assignRequestToElevator.
  destruct (availableElevators r b2) as [|first rest] eqn:Hav;
    [by apply elem_of_nil in Hin0|].
  destruct (assigned_elevator_lookup r b2 first rest Hav) as [Hi _].
  pose proof (availableElevators_sorted r b2) as Hsorted. rewrite Hav in Hsorted.
  destruct (foldl_closer_least r rest first Hsorted _ Hin0) as [_ Hfirst].
  destruct (foldl (closer r) first rest) as [i e]. simpl in *.
  apply Hrest in Hi as Hnew. subst e.
  assert (i = 0%nat) as -> by (apply Nat.le_0_r, Hfirst; done).
  set (b3 := with_elevators b2 _).
  destruct (removePendingRequest_cases r b3) as (-> & -> & _).
  simpl. rewrite Hq, Hel. split; [|done].
  apply (without_first_call_just_pushed r []). constructor.
Qed.

(** X20: a hall call placed in a freshly constructed building with at
    least one elevator, at a floor f above the ground floor, is answered
    by elevator 0: after the call and exactly f ticks the queue is empty,
    elevator 0 stands at floor f, idle, with no destination left, and
    every other elevator is as constructed. *)
Theorem X20_call_from_rest_is_answered_by_elevator_0
    (tf te f : Z) (d : Direction.t) :
  1 ≤ te → 0 < f < tf → ¬ (f = tf - 1 ∧ d = Direction.UP) →
  let b := run (RequestElevator f d :: replicate (Z.to_nat f) Update)
               (new tf te) in
  pendingRequests b = []
  ∧ elevators b
    = <[0%nat := Elevator.mk 0 f [] ElevatorState.IDLE Direction.IDLE]>
        (elevators (new tf te)).
Proof.
  intros Hte Hf Hup. simpl.
  destruct (request_from_rest tf te f d Hte) as [Hq Hes];
    [lia|intros [? _]; lia|done|].
  destruct (ticks_quiet (Z.to_nat f) _ Hq) as [-> ->]. split; [done|].
  rewrite Hes, list_fmap_insert.
  rewrite addDestination_from_rest, moves_to_the_call by lia.
  f_equal. change (array_from te Elevator.new) with (elevators (new tf te)).
  transitivity (id <$> elevators (new tf te)); [|apply list_fmap_id].
  apply list_fmap_ext. intros i e Hi.
  apply array_from_lookup in Hi as ->. by apply moves_nowhere.
Qed.

Lemma X20_call_from_rest_witness :
  let b := run (RequestElevator 5 Direction.UP :: replicate (Z.to_nat 5) Update)
               (new 10 4) in
  pendingRequests b = []
  ∧ elevators b
    = <[0%nat := Elevator.mk 0 5 [] ElevatorState.IDLE Direction.IDLE]>
        (elevators (new 10 4)).
Proof.
  apply (X20_call_from_rest_is_answered_by_elevator_0 10 4 5 Direction.UP).
  - lia.
  - lia.
  - intros [? _]. lia.
Defined.
